(** * Command tree, router and dispatch driver of [command.go]

    A shallow embedding of [src/command.go].  Commands live in a store
    indexed by addresses, because the Go code links them with pointers
    ([parent], [children]) and mutates them in place ([Register],
    [Usage]).  Collaborators that are not defined in [command.go]
    (the argument parser, validators, handlers, colouring, [wrapErr],
    [match], [sort.Sort]) are section variables. *)

From Stdlib Require Import List String Ascii Bool Arith PeanoNat Lia.
From Stdlib Require Import Permutation Sorted.
Import ListNotations.

Set Implicit Arguments.
Set Warnings "-register-all".

Local Open Scope string_scope.
Local Open Scope list_scope.
Local Infix "+++" := String.append (right associativity, at level 60).

(** ** Go library helpers *)

(** The line feed, written ["\n"] in the source. *)
Definition LF : string := String (ascii_of_nat 10) EmptyString.

(** [strings.HasPrefix(s, p)]. *)
Definition HasPrefix (s p : string) : bool := String.prefix p s.

(** [strings.Join(elems, sep)]. *)
Definition Join (elems : list string) (sep : string) : string :=
  String.concat sep elems.

(** Modelled from the spec: the constant [dashOne] is declared in a file
    that is not part of [src/]; section 4.2 says a flag is "a token
    beginning with a single dash". *)
Definition dashOne : string := "-".

(** Outcome of a call that may abort the process.  [Panicf] is not defined
    in [command.go]; the spec calls the failure a fatal configuration
    error, so [Panicf fmt args] is modelled as a panic carrying the
    formatted message. *)
Inductive result (A : Type) : Type :=
| Done (a : A)
| Panicked (msg : string).
Arguments Done {A} a.
Arguments Panicked {A} msg.

(** ** Data model *)

(** A non-nil [*Command].  A Go pointer that may be nil is an
    [option ptr]. *)
Definition ptr : Type := nat.

(** [color.Color] after [Disable]/[Enable]: only the switch matters here. *)
Definition Color : Type := bool.
Definition Disable (_ : Color) : Color := false.
Definition Enable (_ : Color) : Color := true.

Section Model.

(** Values behind the [interface{}] produced by an [ArgvFunc]. *)
Variable argv_obj : Type.
(** Errors made by collaborators (parser, validators). *)
Variable cerr : Type.
(** Whatever handlers act upon (their output, the process state). *)
Variable world : Type.
(** [io.Writer] values. *)
Variable Writer : Type.

(** Modelled from the spec: [throwCommandNotFound] and
    [throwMethodNotAllowed] are defined outside [command.go]; section 7
    lists the error kinds.  The two constructors stand for the values
    those functions build; [Collab] carries a collaborator's error. *)
Inductive error : Type :=
| CommandNotFound (what : string)
| MethodNotAllowed (what : string)
| Collab (e : cerr).

Definition throwCommandNotFound (what : string) : error := CommandNotFound what.
Definition throwMethodNotAllowed (what : string) : error := MethodNotAllowed what.

(** The [flagSet] type is declared outside [command.go]; the fields read
    here are [err], [dontValidate] and [values].  The parser fills the
    object behind [argv] in place; [fs_argv] is that object after the
    parser's writes. *)
Record flagSet : Type := mkFlagSet {
  fs_err : option cerr;
  fs_dontValidate : bool;
  fs_values : list (string * list string);
  fs_argv : argv_obj
}.

Record Context : Type := mkContext {
  ctx_router : list string;
  ctx_path : string;
  ctx_argv : option argv_obj;
  ctx_nativeArgs : list string;
  ctx_flagSet : option flagSet;
  ctx_command : option ptr;
  ctx_writer : option Writer;
  ctx_color : Color
}.

Definition CommandFunc : Type := Context -> world -> option error * world.
Definition ArgvFunc : Type := unit -> option argv_obj.

(** [children] holds non-nil pointers only: [Register] is the one place
    that writes the slice, and it refuses nil.  The mutex [locker] has no
    counterpart in this sequential model; [routersMap] is never read. *)
Record Command : Type := mkCommand {
  Name : string;
  Desc : string;
  Text : string;
  Fn : option CommandFunc;
  Argv : option ArgvFunc;
  CanSubRoute : bool;
  HTTPRouters : list string;
  HTTPMethods : list string;
  parent : option ptr;
  children : list ptr;
  usage : string
}.

(** The heap of commands.  Go is memory safe, so every non-nil pointer
    designates a command: the store is total. *)
Definition store : Type := ptr -> Command.

Definition upd (st : store) (p : ptr) (c : Command) : store :=
  fun q => if Nat.eqb q p then c else st q.

Definition set_children (c : Command) (cs : list ptr) : Command :=
  mkCommand (Name c) (Desc c) (Text c) (Fn c) (Argv c) (CanSubRoute c)
            (HTTPRouters c) (HTTPMethods c) (parent c) cs (usage c).

Definition set_parent (c : Command) (p : option ptr) : Command :=
  mkCommand (Name c) (Desc c) (Text c) (Fn c) (Argv c) (CanSubRoute c)
            (HTTPRouters c) (HTTPMethods c) p (children c) (usage c).

Definition set_usage (c : Command) (u : string) : Command :=
  mkCommand (Name c) (Desc c) (Text c) (Fn c) (Argv c) (CanSubRoute c)
            (HTTPRouters c) (HTTPMethods c) (parent c) (children c) u.

(** ** Routing: [findChild], [SubRoute], [Route] *)

(** The loop of [findChild] over [cmd.children]. *)
Fixpoint findChild_in (st : store) (cs : list ptr) (name : string) : option ptr :=
  match cs with
  | [] => None
  | child :: rest =>
      if String.eqb (Name (st child)) name then Some child
      else findChild_in st rest name
  end.

Definition findChild (st : store) (cmd : ptr) (name : string) : option ptr :=
  findChild_in st (children (st cmd)) name.

(** The loop of [SubRoute]: [cur] is the current node, [i] the index of
    the token [name] at the head of [rest], [len] is [len(router)]. *)
Fixpoint SubRoute_loop (st : store) (len : nat) (cur : ptr) (i : nat)
         (rest : list string) : option ptr * nat :=
  match rest with
  | [] => (Some cur, len)
  | name :: rest' =>
      match findChild st cur name with
      | None => (Some cur, i)
      | Some child => SubRoute_loop st len child (S i) rest'
      end
  end.

Definition SubRoute (st : store) (cmd : ptr) (router : list string)
  : option ptr * nat :=
  SubRoute_loop st (List.length router) cmd 0 router.

Definition Route (st : store) (cmd : ptr) (router : list string) : option ptr :=
  let '(child, end_) := SubRoute st cmd router in
  if negb (Nat.eqb end_ (List.length router)) then None else child.

(** ** Registration *)

Definition Register (st : store) (cmd : ptr) (child : option ptr)
  : result (store * ptr) :=
  match child with
  | None =>
      Panicked ("command `" +++ Name (st cmd) +++ "` try register a nil command")
  | Some c =>
      if String.eqb (Name (st c)) "" then
        Panicked ("command `" +++ Name (st cmd) +++ "` try register a empty command")
      else
        match parent (st c) with
        | Some p =>
            Panicked ("command `" +++ Name (st c) +++ "` has been child of `"
                      +++ Name (st p) +++ "`")
        | None =>
            match findChild st cmd (Name (st c)) with
            | Some _ =>
                Panicked ("repeat register child `" +++ Name (st c)
                          +++ "` for command `" +++ Name (st cmd) +++ "`")
            | None =>
                let st1 := upd st cmd
                             (set_children (st cmd) (children (st cmd) ++ [c])) in
                let st2 := upd st1 c (set_parent (st1 c) (Some cmd)) in
                Done (st2, c)
            end
        end
  end.

Definition Parent (st : store) (cmd : ptr) : option ptr := parent (st cmd).

(** ** Ancestors: [Path] and [Root]

    Both loops follow [parent] links and run for ever on a store whose
    links form a cycle, so they take fuel; [None] means the fuel ran
    out. *)

Fixpoint Path_loop (fuel : nat) (st : store) (cur : ptr) (path : string)
  : option string :=
  match fuel with
  | 0 => None
  | S fuel' =>
      match parent (st cur) with
      | None => Some path
      | Some up =>
          let path' :=
            if negb (String.eqb (Name (st cur)) "") then
              if String.eqb path "" then Name (st cur)
              else Name (st cur) +++ " " +++ path
            else path in
          Path_loop fuel' st up path'
      end
  end.

Definition Path (fuel : nat) (st : store) (cmd : ptr) : option string :=
  Path_loop fuel st cmd "".

Fixpoint Root (fuel : nat) (st : store) (ancestor : ptr) : option ptr :=
  match fuel with
  | 0 => None
  | S fuel' =>
      match parent (st ancestor) with
      | None => Some ancestor
      | Some up => Root fuel' st up
      end
  end.

Definition nochild (st : store) (cmd : ptr) : bool :=
  match children (st cmd) with [] => true | _ :: _ => false end.

(** ** Suggestions *)

(** Modelled from the spec: [editDistanceRank] is declared outside
    [command.go]; its two fields are the candidate [s] and its distance
    [d], which section 4.3 describes as an edit distance, a count. *)
Record editDistanceRank : Type := mkRank { rank_s : string; rank_d : nat }.

(** [match(path, target)] is defined outside [command.go]: it returns the
    distance and whether the candidate is acceptable. *)
Variable match_ : string -> string -> nat * bool.

(** [sort.Sort] applied to an [editDistanceRankSlice]. *)
Variable sort_Sort : list editDistanceRank -> list editDistanceRank.

(** [child.Path()] for every child of the node being visited, appended to
    [targets] in order. *)
Fixpoint append_paths (fuel : nat) (st : store) (cs : list ptr)
         (targets : list string) : option (list string) :=
  match cs with
  | [] => Some targets
  | child :: rest =>
      match Path fuel st child with
      | None => None
      | Some p => append_paths fuel st rest (targets ++ [p])
      end
  end.

(** The work-list loop of [Suggestions]: [cmds] is the list of nodes
    still to visit.  [append(cmds[0].children, cmds[1:]...)] puts the
    children of the visited node in front of the remaining nodes. *)
Fixpoint collect (fuel : nat) (st : store) (cmds : list ptr)
         (targets : list string) : option (list string) :=
  match fuel with
  | 0 => None
  | S fuel' =>
      match cmds with
      | [] => Some targets
      | c0 :: rest =>
          if nochild st c0 then collect fuel' st rest targets
          else
            match append_paths fuel' st (children (st c0)) targets with
            | None => None
            | Some targets' =>
                collect fuel' st (children (st c0) ++ rest) targets'
            end
      end
  end.

(** The loop that keeps the candidates [match] accepts. *)
Fixpoint accepted (path : string) (targets : list string)
  : list editDistanceRank :=
  match targets with
  | [] => []
  | t :: rest =>
      let '(d, ok) := match_ path t in
      if ok then mkRank t d :: accepted path rest
      else accepted path rest
  end.

(** [Suggestions] on a command that has no parent. *)
Definition Suggestions_root (fuel : nat) (st : store) (cmd : ptr)
           (path : string) : option (list string) :=
  match collect fuel st [cmd] [] with
  | None => None
  | Some targets =>
      let dists := sort_Sort (accepted path targets) in
      Some (map rank_s dists)
  end.

Definition Suggestions (fuel : nat) (st : store) (cmd : ptr) (path : string)
  : option (list string) :=
  match parent (st cmd) with
  | Some _ =>
      match Root fuel st cmd with
      | None => None
      | Some r => Suggestions_root fuel st r path
      end
  | None => Suggestions_root fuel st cmd path
  end.

(** ** Usage text *)

(** [clr.Bold] and [clr.Yellow] of the colour library. *)
Variable Bold : Color -> string -> string.
Variable Yellow : Color -> string -> string.
(** The collaborator [usage(argv, clr)], defined outside [command.go]. *)
Variable usage_argv : option argv_obj -> Color -> string.
(** [utf8.RuneCountInString], which [fmt] uses to pad to a width. *)
Variable RuneCount : string -> nat.

Fixpoint spaces (n : nat) : string :=
  match n with 0 => "" | S n' => " " +++ spaces n' end.

(** The verb [%-Ns] of [fmt]: the text, then spaces up to [width]. *)
Definition pad_right (width : nat) (text : string) : string :=
  text +++ spaces (width - RuneCount text).

Fixpoint longest_name (st : store) (cs : list ptr) (length : nat) : nat :=
  match cs with
  | [] => length
  | child :: rest =>
      longest_name st rest
        (if Nat.ltb length (String.length (Name (st child)))
         then String.length (Name (st child)) else length)
  end.

Fixpoint list_lines (st : store) (prefix indent : string) (length : nat)
         (cs : list ptr) : string :=
  match cs with
  | [] => ""
  | child :: rest =>
      (prefix +++ pad_right length (Name (st child)) +++ indent
         +++ Desc (st child) +++ LF)
        +++ list_lines st prefix indent length rest
  end.

(** [prefix] and [indent] go into the format string; the model is for
    texts without a percent sign, as the two this file passes. *)
Definition ListChildren (st : store) (cmd : ptr) (prefix indent : string)
  : string :=
  if nochild st cmd then ""
  else
    let length := longest_name st (children (st cmd)) 0 in
    list_lines st prefix indent length (children (st cmd)).

(** The text [Usage] builds when the cache is empty, and the number of
    calls it makes to the collaborator [usage]. *)
Definition build_usage (st : store) (cmd : ptr) (clr : Color) : string * nat :=
  let c := st cmd in
  let b1 := if negb (String.eqb (Desc c) "") then Desc c +++ LF +++ LF else "" in
  let b2 := if negb (String.eqb (Text c) "") then Text c +++ LF +++ LF else "" in
  let '(b3, calls) :=
    match Argv c with
    | Some mk => (Bold clr "Usage" +++ ":" +++ LF +++ usage_argv (mk tt) clr, 1)
    | None => ("", 0)
    end in
  let b4 :=
    match children c with
    | [] => ""
    | _ :: _ =>
        (match Argv c with Some _ => LF | None => "" end)
          +++ Bold clr "Commands" +++ ":" +++ LF
          +++ ListChildren st cmd "  " "   "
    end in
  (b1 +++ b2 +++ b3 +++ b4, calls).

(** [Usage] returns the text, the store after the call and the number of
    calls made to the collaborator [usage]. *)
Definition Usage (st : store) (cmd : ptr) (ctxs : list Context)
  : string * store * nat :=
  let clr := match ctxs with c :: _ => ctx_color c | [] => Disable false end in
  let tmpUsage := usage (st cmd) in
  if negb (String.eqb tmpUsage "") then (tmpUsage, st, 0)
  else
    let '(text, calls) := build_usage st cmd clr in
    (text, upd st cmd (set_usage (st cmd) text), calls).

(** ** Execution context *)

(** [parseArgv(args, argv, clr)], defined outside [command.go]. *)
Variable parseArgv : list string -> argv_obj -> Color -> flagSet.
(** The type assertion [argv.(Validator)] followed by [Validate()]:
    [None] when the object is no [Validator], else the call's result. *)
Variable Validate : argv_obj -> option (option cerr).
(** [wrapErr(err, suggestion, clr)], defined outside [command.go]. *)
Variable wrapErr : error -> string -> Color -> error.
(** [colorable.NewColorableStdout()]. *)
Variable NewColorableStdout : Writer.
(** The test of [colorSwitch]: the writer is an [*os.File] on a terminal. *)
Variable isTerminalFile : Writer -> bool.

(** [newContext] returns a context or an error, never both and never
    neither: the Go pair is the sum [Context + error]. *)
Definition newContext (path : string) (router args : list string)
           (argv : option argv_obj) (clr : Color) : Context + error :=
  let ctx := mkContext router path argv args None None None clr in
  match argv with
  | Some obj =>
      let fs := parseArgv args obj (ctx_color ctx) in
      match fs_err fs with
      | Some e => inr (Collab e)
      | None =>
          inl (mkContext router path (Some (fs_argv fs)) args (Some fs)
                         None None clr)
      end
  | None => inl ctx
  end.

Definition Context_Path (ctx : Context) : string := ctx_path ctx.
Definition Context_Router (ctx : Context) : list string := ctx_router ctx.
Definition Context_Args (ctx : Context) : list string := ctx_nativeArgs ctx.
Definition Context_Argv (ctx : Context) : option argv_obj := ctx_argv ctx.
Definition Context_Command (ctx : Context) : option ptr := ctx_command ctx.

Definition colorSwitch (w : Writer) : Color :=
  if isTerminalFile w then Enable (Disable false) else Disable false.

(** ** Dispatch: [RunWithWriter] *)

(** The loop that splits [args]: tokens up to the first one that starts
    with a dash. *)
Fixpoint split_router (args : list string) : list string :=
  match args with
  | [] => []
  | arg :: rest =>
      if HasPrefix arg dashOne then [] else arg :: split_router rest
  end.

Fixpoint suggestion_lines (suggestions : list string) : string :=
  match suggestions with
  | [] => ""
  | sug :: rest => ("    " +++ sug +++ LF) +++ suggestion_lines rest
  end.

(** The text written to [buff] on a routing failure. *)
Definition render_suggestions (clr : Color) (suggestions : list string) : string :=
  match suggestions with
  | [] => ""
  | [one] => LF +++ "Did you mean " +++ Bold clr one +++ "?"
  | _ => (LF +++ LF +++ "Did you mean one of these?" +++ LF)
           +++ suggestion_lines suggestions
  end.

(** The loop over [child.HTTPMethods]. *)
Fixpoint method_in (method : string) (ms : list string) : bool :=
  match ms with
  | [] => false
  | m :: rest => if String.eqb method m then true else method_in method rest
  end.

(** What the closure in [RunWithWriter] leaves behind: its returned
    error and the two variables it captures. *)
Record prepared : Type := mkPrepared {
  p_err : option error;
  p_ctx : option Context;
  p_suggestion : string
}.

Definition set_command_writer (ctx : Context) (child : ptr) (w : Writer) : Context :=
  mkContext (ctx_router ctx) (ctx_path ctx) (ctx_argv ctx) (ctx_nativeArgs ctx)
            (ctx_flagSet ctx) (Some child) (Some w) (ctx_color ctx).

(** The method check on the matched command [c]. *)
Definition methodAllowed (st : store) (c : ptr) (httpMethods : list string) : bool :=
  match httpMethods with
  | [] => true
  | method :: _ =>
      match HTTPMethods (st c) with
      | [] => true
      | ms => method_in method ms
      end
  end.

(** The validation step: the error of [Validate], if it is called and
    fails. *)
Definition validate (argv : option argv_obj) (ctx : Context) : option error :=
  match argv, ctx_flagSet ctx with
  | Some _, Some fs =>
      if negb (fs_dontValidate fs) then
        match Validate (fs_argv fs) with
        | Some (Some e) => Some (Collab e)
        | _ => None
        end
      else None
  | _, _ => None
  end.

(** The statements that create [argv]: the factory's object, or nil. *)
Definition make_argv (st : store) (c : ptr) : option argv_obj :=
  match Argv (st c) with
  | Some mk => mk tt
  | None => None
  end.

(** The branch taken when routing fails. *)
Definition route_failed (fuel : nat) (st : store) (cmd : ptr) (path : string)
           (clr : Color) : option prepared :=
  match Suggestions fuel st cmd path with
  | None => None
  | Some suggestions =>
      Some (mkPrepared (Some (throwCommandNotFound (Yellow clr path))) None
                       (render_suggestions clr suggestions))
  end.

(** The closure of [RunWithWriter].  Only the call of [Suggestions] can
    use up the fuel. *)
Definition prepare (fuel : nat) (st : store) (cmd : ptr) (args : list string)
           (writer : Writer) (clr : Color) (httpMethods : list string)
  : option prepared :=
  let router := split_router args in
  if Nat.eqb (List.length router) 0
     && (match Fn (st cmd) with None => true | Some _ => false end)
  then Some (mkPrepared (Some (throwCommandNotFound (Yellow clr (Name (st cmd)))))
                        None "")
  else
    let path := Join router " " in
    let '(child, end_) := SubRoute st cmd router in
    match child with
    | None => route_failed fuel st cmd path clr
    | Some c =>
        if negb (CanSubRoute (st c)) && negb (Nat.eqb end_ (List.length router))
        then route_failed fuel st cmd path clr
        else if negb (methodAllowed st c httpMethods) then
          Some (mkPrepared
                  (Some (throwMethodNotAllowed (Yellow clr (hd "" httpMethods))))
                  None "")
        else
          let argv := make_argv st c in
          match newContext path (firstn end_ router) (skipn end_ args) argv clr with
          | inr tmpErr => Some (mkPrepared (Some tmpErr) None "")
          | inl ctx =>
              match validate argv ctx with
              | Some e => Some (mkPrepared (Some e) (Some ctx) "")
              | None =>
                  Some (mkPrepared None (Some (set_command_writer ctx c writer)) "")
              end
          end
    end.

(** [RunWithWriter]: the returned error and the world after the call, or
    a panic when the matched command has a nil [Fn]. *)
Definition RunWithWriter (fuel : nat) (st : store) (cmd : ptr)
           (args : list string) (writer : option Writer)
           (httpMethods : list string) (w : world)
  : option (result (option error) * world) :=
  let writer := match writer with None => NewColorableStdout | Some wr => wr end in
  let clr := colorSwitch writer in
  match prepare fuel st cmd args writer clr httpMethods with
  | None => None
  | Some p =>
      match p_err p with
      | Some err => Some (Done (Some (wrapErr err (p_suggestion p) clr)), w)
      | None =>
          match p_ctx p with
          | None => Some (Panicked "nil pointer dereference", w)
          | Some ctx =>
              match ctx_command ctx with
              | None => Some (Panicked "nil pointer dereference", w)
              | Some c =>
                  match Fn (st c) with
                  | None => Some (Panicked "nil pointer dereference", w)
                  | Some fn => let '(e, w') := fn ctx w in Some (Done e, w')
                  end
              end
          end
      end
  end.

Definition Run (fuel : nat) (st : store) (cmd : ptr) (args : list string)
           (w : world) : option (result (option error) * world) :=
  RunWithWriter fuel st cmd args None [] w.

End Model.

Arguments CommandNotFound {cerr} what.
Arguments MethodNotAllowed {cerr} what.

(** ** Reference notions used to state the properties *)

(** A command tree as a value: a name and the subtrees in registration
    order. *)
Inductive tree : Type := Node (name : string) (kids : list tree).

Definition tname (t : tree) : string := match t with Node n _ => n end.
Definition tkids (t : tree) : list tree := match t with Node _ ks => ks end.

Fixpoint size (t : tree) : nat :=
  match t with Node _ ks => S (list_sum (map size ks)) end.

Fixpoint height (t : tree) : nat :=
  match t with Node _ ks => S (list_max (map height ks)) end.

(** [a] and [b] with one space between, unless one of them is empty. *)
Definition glue (a b : string) : string :=
  if String.eqb a "" then b
  else if String.eqb b "" then a
  else a +++ " " +++ b.

(** The fully-qualified path for the names met from just below the root
    down to a node: the non-empty names joined by single spaces. *)
Definition qualified (chain : list string) : string :=
  Join (filter (fun n => negb (String.eqb n "")) chain) " ".

(** Every node below the root of [t], each before its descendants, where
    [chain] holds the names from below the root down to the root of [t]. *)
Fixpoint preorder (chain : list string) (t : tree) : list string :=
  match t with
  | Node _ ks =>
      flat_map (fun k => qualified (chain ++ [tname k])
                           :: preorder (chain ++ [tname k]) k) ks
  end.

(** Depth-first discovery: the paths of the children of a node, then, for
    each child in turn, the discovery below that child. *)
Fixpoint depth_first (chain : list string) (t : tree) : list string :=
  match t with
  | Node _ ks =>
      map (fun k => qualified (chain ++ [tname k])) ks
        ++ flat_map (fun k => depth_first (chain ++ [tname k]) k) ks
  end.

(** The paths of the nodes [d] levels below the root of [t], left to
    right. *)
Fixpoint level (d : nat) (chain : list string) (t : tree) : list string :=
  match d with
  | 0 => []
  | S d' =>
      flat_map (fun k =>
                  match d' with
                  | 0 => [qualified (chain ++ [tname k])]
                  | S _ => level d' (chain ++ [tname k]) k
                  end) (tkids t)
  end.

(** Breadth-first discovery, the order section 4.3 of the spec names:
    the root's children, then their children, and so on. *)
Definition breadth_first (t : tree) : list string :=
  flat_map (fun d => level d [] t) (seq 1 (height t)).

Section Shape.

Variables argv_obj cerr world Writer : Type.
Local Abbreviation store := (store argv_obj cerr world Writer).

(** The store holds the tree [t] at address [p], below [up]. *)
Inductive repr (st : store) : ptr -> option ptr -> tree -> Prop :=
| repr_node p up n ks :
    Name (st p) = n ->
    parent (st p) = up ->
    Forall2 (fun q k => repr st q (Some p) k) (children (st p)) ks ->
    repr st p up (Node n ks).

(** Following [parent] from [p] ends at a command without parent, and
    [chain] lists the names from just below that command down to [p]. *)
Inductive above (st : store) : ptr -> list string -> Prop :=
| above_root p : parent (st p) = None -> above st p []
| above_step p up chain :
    parent (st p) = Some up ->
    above st up chain ->
    above st p (chain ++ [Name (st p)]).

(** Following [parent] from [p] ends at [r], which has no parent. *)
Inductive root_of (st : store) : ptr -> ptr -> Prop :=
| root_here p : parent (st p) = None -> root_of st p p
| root_up p up r : parent (st p) = Some up -> root_of st up r -> root_of st p r.

(** An entry of the work list of [Suggestions]: a command, the names from
    below the root down to it, and the tree it holds. *)
Definition entry : Type := (ptr * list string * tree)%type.
Definition entry_ptr (e : entry) : ptr := fst (fst e).
Definition entry_chain (e : entry) : list string := snd (fst e).
Definition entry_tree (e : entry) : tree := snd e.

Definition entry_ok (st : store) (e : entry) : Prop :=
  (exists up, repr st (entry_ptr e) up (entry_tree e)) /\
  above st (entry_ptr e) (entry_chain e).

(** The entries for the children [cs] of a command with chain [chain]
    that holds the subtrees [ks]. *)
Definition child_entries (chain : list string) (cs : list ptr) (ks : list tree)
  : list entry :=
  map (fun qk => (fst qk, chain ++ [tname (snd qk)], snd qk)) (combine cs ks).

(** The number of commands in the trees of a work list, and an upper
    bound on how far below the root they reach. *)
Definition entries_size (es : list entry) : nat :=
  list_sum (map (fun e => size (entry_tree e)) es).
Definition entries_depth (es : list entry) : nat :=
  list_max (map (fun e => List.length (entry_chain e) + height (entry_tree e)) es).

(** What visiting the entries in order adds to [targets]. *)
Definition entries_found (es : list entry) : list string :=
  flat_map (fun e => depth_first (entry_chain e) (entry_tree e)) es.

(** The first element of [cs] whose name is [name]. *)
Definition first_named (st : store) (cs : list ptr) (name : string) (c : ptr) : Prop :=
  exists before after,
    cs = before ++ c :: after /\ Name (st c) = name /\
    forall x, In x before -> Name (st x) <> name.

(** The walk section 4.2 describes: from [cur], token by token, to the
    child named as the token, until a token names no child. *)
Inductive descends (st : store) : ptr -> list string -> ptr -> nat -> Prop :=
| descends_done cur : descends st cur [] cur 0
| descends_stop cur tok toks :
    (forall c, In c (children (st cur)) -> Name (st c) <> tok) ->
    descends st cur (tok :: toks) cur 0
| descends_step cur tok toks c node k :
    first_named st (children (st cur)) tok c ->
    descends st c toks node k ->
    descends st cur (tok :: toks) node (S k).

(** The router prefix is empty and the command has no handler. *)
Definition nothing_to_do (st : store) (cmd : ptr) (args : list string) : Prop :=
  split_router args = [] /\ Fn (st cmd) = None.

(** Routing stops at [node] after [k] tokens of the router prefix. *)
Definition reaches (st : store) (cmd : ptr) (args : list string)
           (node : ptr) (k : nat) : Prop :=
  SubRoute st cmd (split_router args) = (Some node, k).

(** [node] was reached before the end of the router prefix and is not
    sub-routable. *)
Definition stops_short (st : store) (args : list string) (node : ptr) (k : nat) : Prop :=
  k <> List.length (split_router args) /\ CanSubRoute (st node) = false.

(** The structural match succeeds at [node] after [k] tokens. *)
Definition matched (st : store) (cmd : ptr) (args : list string)
           (node : ptr) (k : nat) : Prop :=
  ~ nothing_to_do st cmd args /\
  reaches st cmd args node k /\
  ~ stops_short st args node k.

(** The caller names a method, [node] declares allowed methods, and the
    first method named is not among them. *)
Definition method_rejected (st : store) (node : ptr) (httpMethods : list string) : Prop :=
  exists method rest,
    httpMethods = method :: rest /\
    HTTPMethods (st node) <> [] /\
    ~ In method (HTTPMethods (st node)).

(** The four reasons for which [Register] refuses [child]. *)
Definition Register_rejects (st : store) (cmd : ptr) (child : option ptr) : Prop :=
  match child with
  | None => True
  | Some c =>
      Name (st c) = "" \/
      parent (st c) <> None \/
      exists x, In x (children (st cmd)) /\ Name (st x) = Name (st c)
  end.

End Shape.

(** ** The ways through the closure of [RunWithWriter] *)

Section Stages.

Variables argv_obj cerr world Writer : Type.
Variable match_ : string -> string -> nat * bool.
Variable sort_Sort : list editDistanceRank -> list editDistanceRank.
Variables Bold Yellow : Color -> string -> string.
Variable parseArgv : list string -> argv_obj -> Color -> flagSet argv_obj cerr.
Variable Validate : argv_obj -> option (option cerr).

Local Abbreviation store := (store argv_obj cerr world Writer).
Local Abbreviation prepared := (prepared argv_obj cerr Writer).
Local Abbreviation newContext := (@newContext argv_obj cerr Writer parseArgv).
Local Abbreviation validate := (@validate argv_obj cerr Writer Validate).

(** What the closure leaves behind, by the place where it returns, for a
    dispatch whose routing stops at [node] after [k] tokens. *)
Inductive closure_case (fuel : nat) (st : store) (cmd : ptr) (args : list string)
          (writer : Writer) (clr : Color) (httpMethods : list string)
          (node : ptr) (k : nat) : prepared -> Prop :=
| case_nothing :
    nothing_to_do st cmd args ->
    closure_case fuel st cmd args writer clr httpMethods node k
      (mkPrepared (Some (CommandNotFound (Yellow clr (Name (st cmd))))) None "")
| case_stops_short suggestions :
    ~ nothing_to_do st cmd args ->
    stops_short st args node k ->
    Suggestions match_ sort_Sort fuel st cmd (Join (split_router args) " ")
      = Some suggestions ->
    closure_case fuel st cmd args writer clr httpMethods node k
      (mkPrepared
         (Some (CommandNotFound (Yellow clr (Join (split_router args) " "))))
         None (render_suggestions Bold clr suggestions))
| case_method method rest :
    matched st cmd args node k ->
    method_rejected st node httpMethods ->
    httpMethods = method :: rest ->
    closure_case fuel st cmd args writer clr httpMethods node k
      (mkPrepared (Some (MethodNotAllowed (Yellow clr method))) None "")
| case_parse e :
    matched st cmd args node k ->
    ~ method_rejected st node httpMethods ->
    newContext (Join (split_router args) " ")
               (firstn k (split_router args)) (skipn k args)
               (make_argv st node) clr = inr (Collab e) ->
    closure_case fuel st cmd args writer clr httpMethods node k
      (mkPrepared (Some (Collab e)) None "")
| case_validate ctx e :
    matched st cmd args node k ->
    ~ method_rejected st node httpMethods ->
    newContext (Join (split_router args) " ")
               (firstn k (split_router args)) (skipn k args)
               (make_argv st node) clr = inl ctx ->
    validate (make_argv st node) ctx = Some (Collab e) ->
    closure_case fuel st cmd args writer clr httpMethods node k
      (mkPrepared (Some (Collab e)) (Some ctx) "")
| case_ready ctx :
    matched st cmd args node k ->
    ~ method_rejected st node httpMethods ->
    newContext (Join (split_router args) " ")
               (firstn k (split_router args)) (skipn k args)
               (make_argv st node) clr = inl ctx ->
    validate (make_argv st node) ctx = None ->
    closure_case fuel st cmd args writer clr httpMethods node k
      (mkPrepared None (Some (set_command_writer ctx node writer)) "").

End Stages.

(** ** Insertion sort, the method [sort.Sort] uses on short slices *)

(** The inner loop: [x] moves left past every element of greater
    distance, so it lands behind the elements of equal distance. *)
Fixpoint insert_rank (x : editDistanceRank) (l : list editDistanceRank)
  : list editDistanceRank :=
  match l with
  | [] => [x]
  | y :: l' =>
      if Nat.ltb (rank_d x) (rank_d y) then x :: y :: l'
      else y :: insert_rank x l'
  end.

(** The outer loop: [done] is the sorted front part, [rest] the elements
    still to insert, taken left to right. *)
Fixpoint insertionSort_loop (done rest : list editDistanceRank)
  : list editDistanceRank :=
  match rest with
  | [] => done
  | x :: rest' => insertionSort_loop (insert_rank x done) rest'
  end.

Definition insertionSort (l : list editDistanceRank) : list editDistanceRank :=
  insertionSort_loop [] l.

(** What [sort.Sort] promises for the order by distance: the same
    elements, no element before one of smaller distance. *)
Definition sorts (sort_Sort : list editDistanceRank -> list editDistanceRank) : Prop :=
  forall l,
    Permutation (sort_Sort l) l /\
    StronglySorted (fun a b => rank_d a <= rank_d b) (sort_Sort l).

(** A sort that leaves the elements of one distance in the order in which
    they came in. *)
Definition keeps_ties (sort_Sort : list editDistanceRank -> list editDistanceRank)
  : Prop :=
  forall l d,
    filter (fun x => Nat.eqb (rank_d x) d) (sort_Sort l)
    = filter (fun x => Nat.eqb (rank_d x) d) l.

(** ** The ranker of section 4.3 *)

(** Modelled from the spec: [match] is not in [command.go].  Section 4.3
    gives the distance as the classic insertion/deletion/substitution edit
    distance over characters: the distance to the empty string is the
    length, and otherwise the least of deleting the first character of
    [s], inserting the first character of [t], and substituting one for
    the other, which costs nothing when they are equal. *)
Fixpoint levenshtein (s t : string) : nat :=
  match s with
  | EmptyString => String.length t
  | String a s' =>
      (fix against (t : string) : nat :=
         match t with
         | EmptyString => S (String.length s')
         | String b t' =>
             Nat.min (S (levenshtein s' t))
                     (Nat.min (S (against t'))
                              ((if Ascii.eqb a b then 0 else 1)
                               + levenshtein s' t'))
         end) t
  end.

(** Modelled from the spec: [match(path, target)] returns the distance of
    the candidate [target] from the requested [path] and whether it is
    below the threshold.  Section 4.3 says of the threshold only that it
    is fixed and relative to the lengths of the two strings, so it is the
    parameter [acceptable], given the distance and the two lengths. *)
Definition spec_match (acceptable : nat -> nat -> nat -> bool)
           (path target : string) : nat * bool :=
  let d := levenshtein path target in
  (d, acceptable d (String.length path) (String.length target)).

(** ** Concrete trees used in the examples *)

Section Trees.

Variables argv_obj cerr world Writer : Type.
Local Abbreviation Command := (Command argv_obj cerr world Writer).
Local Abbreviation store := (store argv_obj cerr world Writer).

(** A command with a name, a parent and children, and nothing else. *)
Definition plain (name : string) (up : option ptr) (cs : list ptr) : Command :=
  mkCommand name "" "" None None false [] [] up cs "".

(** root -> a -> b, at the addresses 0, 1 and 2. *)
Definition tree_ab : store :=
  fun p =>
    match p with
    | 0 => plain "app" None [1]
    | 1 => plain "a" (Some 0) [2]
    | 2 => plain "b" (Some 1) []
    | _ => plain "" None []
    end.

(** root -> a -> c -> e and root -> b -> d. *)
Definition tree_deep : store :=
  fun p =>
    match p with
    | 0 => plain "app" None [1; 2]
    | 1 => plain "a" (Some 0) [3]
    | 2 => plain "b" (Some 0) [4]
    | 3 => plain "c" (Some 1) [5]
    | 4 => plain "d" (Some 2) []
    | 5 => plain "e" (Some 3) []
    | _ => plain "" None []
    end.

Definition shape_deep : tree :=
  Node "app" [Node "a" [Node "c" [Node "e" []]]; Node "b" [Node "d" []]].

(** root -> status, root -> start, root -> configuration. *)
Definition tree_status : store :=
  fun p =>
    match p with
    | 0 => plain "app" None [1; 2; 3]
    | 1 => plain "configuration" (Some 0) []
    | 2 => plain "status" (Some 0) []
    | 3 => plain "start" (Some 0) []
    | _ => plain "" None []
    end.

Definition shape_status : tree :=
  Node "app" [Node "configuration" []; Node "status" []; Node "start" []].

(** root -> a -> b -> cd and root -> a-b -> cd. *)
Definition tree_typo : store :=
  fun p =>
    match p with
    | 0 => plain "app" None [1; 2]
    | 1 => plain "a" (Some 0) [3]
    | 2 => plain "a-b" (Some 0) [4]
    | 3 => plain "b" (Some 1) [5]
    | 4 => plain "cd" (Some 2) []
    | 5 => plain "cd" (Some 3) []
    | _ => plain "" None []
    end.

Definition shape_typo : tree :=
  Node "app" [Node "a" [Node "b" [Node "cd" []]]; Node "a-b" [Node "cd" []]].

End Trees.

Arguments plain {argv_obj cerr world Writer} name up cs.

(** Collaborators for the examples: a parser that stores the tokens it is
    given in the object, no validator, colouring by tags, and a [wrapErr]
    that appends the suggestion text to the message. *)
Module Demo.

Definition argv_obj : Type := list string.
Definition cerr : Type := string.
Definition world : Type := list string.
Definition Writer : Type := bool.

Definition Command : Type := Command argv_obj cerr world Writer.
Definition store : Type := store argv_obj cerr world Writer.
Definition Context : Type := Context argv_obj cerr Writer.

(** A matcher that accepts every candidate at distance 0. *)
Definition match_ (path target : string) : nat * bool := (0, true).
Definition Bold (clr : Color) (text : string) : string :=
  if clr then "<b>" +++ text +++ "</b>" else text.
Definition Yellow (clr : Color) (text : string) : string :=
  if clr then "<y>" +++ text +++ "</y>" else text.
Definition usage_argv (obj : option argv_obj) (clr : Color) : string :=
  Bold clr "-h" +++ "  show help" +++ LF.
Definition RuneCount (text : string) : nat := String.length text.
Definition parseArgv (args : list string) (obj : argv_obj) (clr : Color)
  : flagSet argv_obj cerr :=
  mkFlagSet None false [] args.
Definition Validate (obj : argv_obj) : option (option cerr) := None.
Definition wrapErr (e : error cerr) (suggestion : string) (clr : Color)
  : error cerr :=
  match e with
  | CommandNotFound what => CommandNotFound (what +++ suggestion)
  | other => other
  end.
Definition NewColorableStdout : Writer := false.
Definition isTerminalFile (w : Writer) : bool := w.

(** A handler that logs the path it was run for and fails. *)
Definition failing : CommandFunc argv_obj cerr world Writer :=
  fun ctx w => (Some (Collab "boom"), ctx_path ctx :: w).

(** A handler that logs the path it was run for and succeeds. *)
Definition logging : CommandFunc argv_obj cerr world Writer :=
  fun ctx w => (None, ctx_path ctx :: w).

(** A threshold relative to the lengths: the distance is less than half
    the length of the longer string. *)
Definition within_half (d len_path len_target : nat) : bool :=
  Nat.ltb (2 * d) (Nat.max len_path len_target).

Definition ab : store := tree_ab argv_obj cerr world Writer.
Definition deep : store := tree_deep argv_obj cerr world Writer.
Definition status : store := tree_status argv_obj cerr world Writer.
Definition typo : store := tree_typo argv_obj cerr world Writer.

Definition prepare :=
  @prepare argv_obj cerr world Writer match_ insertionSort Bold Yellow
           parseArgv Validate.

Definition RunWithWriter :=
  @RunWithWriter argv_obj cerr world Writer match_ insertionSort Bold Yellow
                 parseArgv Validate wrapErr NewColorableStdout isTerminalFile.

Definition Usage := @Usage argv_obj cerr world Writer Bold usage_argv RuneCount.

(** root -> hello -> world; [world] has a handler and an argument
    factory. *)
Definition hello_world : store :=
  fun p =>
    match p with
    | 0 => plain "app" None [1]
    | 1 => plain "hello" (Some 0) [2]
    | 2 => mkCommand "world" "" "" (Some logging) (Some (fun _ => Some []))
                     false [] [] (Some 1) [] ""
    | _ => plain "" None []
    end.

(** root -> hello, where [hello] takes the rest of the line itself:
    it is sub-routable and has a handler and an argument factory. *)
Definition hello_rest : store :=
  fun p =>
    match p with
    | 0 => plain "app" None [1]
    | 1 => mkCommand "hello" "" "" (Some logging) (Some (fun _ => Some []))
                     true [] [] (Some 0) [] ""
    | _ => plain "" None []
    end.

(** A command with a description, an argument factory and one child. *)
Definition documented : store :=
  fun p =>
    match p with
    | 0 => mkCommand "app" "An application" "" None (Some (fun _ => Some []))
                     false [] [] None [1] ""
    | 1 => mkCommand "run" "Run it" "" (Some logging) None
                     false [] [] (Some 0) [] ""
    | _ => plain "" None []
    end.

(** A context that carries the colour [clr] and nothing else. *)
Definition colored (clr : Color) : Context :=
  mkContext [] "" None [] None None None clr.

(** root -> get, where [get] allows the method GET only and fails. *)
Definition gated : store :=
  fun p =>
    match p with
    | 0 => plain "app" None [1]
    | 1 => mkCommand "get" "" "" (Some failing) None
                     false [] ["GET"] (Some 0) [] ""
    | _ => plain "" None []
    end.

End Demo.

(** ** Further operations of [command.go] *)

Section More.

Variables argv_obj cerr world Writer : Type.
Local Abbreviation store := (store argv_obj cerr world Writer).
Local Abbreviation Context := (Context argv_obj cerr Writer).
Local Abbreviation CommandFunc := (CommandFunc argv_obj cerr world Writer).

(** [ctx.Writer()]: the writer of the context; when there is none, the
    standard output, which is also stored in the context. *)
Definition Context_Writer (NewColorableStdout : Writer) (ctx : Context)
  : Writer * Context :=
  match ctx_writer ctx with
  | None =>
      (NewColorableStdout,
       mkContext (ctx_router ctx) (ctx_path ctx) (ctx_argv ctx)
                 (ctx_nativeArgs ctx) (ctx_flagSet ctx) (ctx_command ctx)
                 (Some NewColorableStdout) (ctx_color ctx))
  | Some w => (w, ctx)
  end.

(** [RegisterFunc]: [fresh] is the address of the command the composite
    literal allocates. *)
Definition RegisterFunc (st : store) (fresh : ptr) (cmd : ptr) (name : string)
           (fn : option CommandFunc) (argvFn : option (ArgvFunc argv_obj))
  : result (store * ptr) :=
  Register (upd st fresh (mkCommand name "" "" fn argvFn false [] [] None [] ""))
           cmd (Some fresh).

(** A [CommandTree]: a command and the trees to register below it.  Both
    the command and the elements of the forest are pointers and may be
    nil. *)
Inductive CommandTree : Type :=
  mkCommandTree (ct_command : option ptr) (ct_forest : list (option CommandTree)).

(** The loop of [RegisterTree] over [forest], where [one] registers one
    tree; a nil tree makes [tree.command] panic. *)
Fixpoint RegisterTree_loop (one : store -> CommandTree -> result store)
         (st : store) (forest : list (option CommandTree)) : result store :=
  match forest with
  | [] => Done st
  | None :: _ => Panicked "nil pointer dereference"
  | Some tree :: rest =>
      match one st tree with
      | Panicked msg => Panicked msg
      | Done st' => RegisterTree_loop one st' rest
      end
  end.

(** The body of the loop for one tree: register its command below [cmd],
    then its forest below that command.  The test for an empty forest
    skips a loop that would do nothing. *)
Fixpoint RegisterTree_one (cmd : ptr) (st : store) (tree : CommandTree)
  : result store :=
  match tree with
  | mkCommandTree command forest =>
      match Register st cmd command with
      | Panicked msg => Panicked msg
      | Done (st1, child) =>
          match forest with
          | [] => Done st1
          | _ :: _ => RegisterTree_loop (RegisterTree_one child) st1 forest
          end
      end
  end.

Definition RegisterTree (st : store) (cmd : ptr) (forest : list (option CommandTree))
  : result store :=
  RegisterTree_loop (RegisterTree_one cmd) st forest.

(** The commands at the top of a forest, and all commands in it. *)
Fixpoint tree_commands (tree : CommandTree) : list ptr :=
  match tree with
  | mkCommandTree command forest =>
      (match command with Some c => [c] | None => [] end)
        ++ flat_map (fun o => match o with
                              | Some sub => tree_commands sub
                              | None => []
                              end) forest
  end.

Definition forest_commands (forest : list (option CommandTree)) : list ptr :=
  flat_map (fun o => match o with Some sub => tree_commands sub | None => [] end)
           forest.

Definition forest_tops (forest : list (option CommandTree)) : list ptr :=
  flat_map (fun o => match o with
                     | Some (mkCommandTree (Some c) _) => [c]
                     | _ => []
                     end) forest.

(** What registering trees below [x] leaves alone: the child lists of the
    commands other than [x] and the commands [cs] of the trees, and every
    parent pointer that is set. *)
Definition leaves_alone (x : ptr) (cs : list ptr) (st st' : store) : Prop :=
  (forall q, q <> x -> ~ In q cs -> children (st' q) = children (st q)) /\
  (forall q, parent (st q) <> None -> parent (st' q) = parent (st q)).

(** No two children of a command bear the same name. *)
Definition names_unique (st : store) : Prop :=
  forall q, NoDup (map (fun c => Name (st c)) (children (st q))).

(** Child lists and parent pointers agree. *)
Definition linked (st : store) : Prop :=
  forall q c, In c (children (st q)) <-> parent (st c) = Some q.

(** Every child knows its parent. *)
Definition children_know_parent (st : store) : Prop :=
  forall q c, In c (children (st q)) -> parent (st c) = Some q.

End More.

(** Further stores for the examples. *)
Module Demo2.

(** Four named commands that are not registered yet. *)
Definition loose : Demo.store :=
  fun p =>
    match p with
    | 0 => plain "app" None []
    | 1 => plain "a" None []
    | 2 => plain "b" None []
    | 3 => plain "c" None []
    | _ => plain "" None []
    end.

(** a, with c below it, and then b. *)
Definition forest : list (option CommandTree) :=
  [Some (mkCommandTree (Some 1) [Some (mkCommandTree (Some 3) [])]);
   Some (mkCommandTree (Some 2) [])].

(** The documented command of [Demo], and a command "stop" that is not
    registered yet. *)
Definition documented_plus : Demo.store :=
  fun p =>
    match p with
    | 2 => plain "stop" None []
    | _ => Demo.documented p
    end.

(** root -> a -> b, and a command "c" that is not registered yet. *)
Definition ab_plus : Demo.store :=
  fun p =>
    match p with
    | 3 => plain "c" None []
    | _ => Demo.ab p
    end.

End Demo2.

(** * Properties *)

(** ** Routing *)

Section RoutingFacts.

Variables argv_obj cerr world Writer : Type.
Local Abbreviation store := (store argv_obj cerr world Writer).
Implicit Types (st : store) (cmd cur node : ptr) (router : list string).

Lemma findChild_in_none st cs name :
  findChild_in st cs name = None <->
  (forall c, In c cs -> Name (st c) <> name).
Proof.
  induction cs as [|c cs IH]; simpl.
  - split; [intros _ c [] | reflexivity].
  - destruct (String.eqb_spec (Name (st c)) name) as [E|E].
    + split; [discriminate|]. intros H. exfalso. apply (H c); auto.
    + rewrite IH. split.
      * intros H x [<-|Hx]; auto.
      * intros H x Hx. apply H. now right.
Qed.

Lemma findChild_in_some st cs name c :
  findChild_in st cs name = Some c <-> first_named st cs name c.
Proof.
  unfold first_named. induction cs as [|x cs IH]; simpl.
  - split; [discriminate|]. intros (b & a & E & _). now destruct b.
  - destruct (String.eqb_spec (Name (st x)) name) as [E|E].
    + split.
      * intros [= <-]. exists [], cs. repeat split; auto.
      * intros (b & a & Hcs & Hn & Hb). destruct b as [|y b]; simpl in Hcs.
        -- now injection Hcs as -> _.
        -- injection Hcs as <- _. exfalso. apply (Hb x); simpl; auto.
    + rewrite IH. split.
      * intros (b & a & -> & Hn & Hb). exists (x :: b), a.
        repeat split; auto. intros y [<-|Hy]; auto.
      * intros (b & a & Hcs & Hn & Hb). destruct b as [|y b]; simpl in Hcs.
        -- injection Hcs as -> _. contradiction.
        -- injection Hcs as <- ->. exists b, a. repeat split; auto.
           intros z Hz. apply Hb. now right.
Qed.

Lemma first_named_has_name st cs name c :
  first_named st cs name c -> In c cs /\ Name (st c) = name.
Proof.
  intros (b & a & -> & Hn & _). split; auto. apply in_or_app. right. now left.
Qed.

(** The loop, started at index [i] with [length rest] tokens left, walks
    as [descends] says and counts from [i]. *)
Lemma SubRoute_loop_descends st rest :
  forall cur i,
  exists node k,
    SubRoute_loop st (i + List.length rest) cur i rest = (Some node, i + k) /\
    k <= List.length rest /\
    descends st cur rest node k.
Proof.
  induction rest as [|tok toks IH]; intros cur i; simpl.
  - exists cur, 0. repeat split; auto. constructor.
  - unfold findChild. destruct (findChild_in st (children (st cur)) tok) as [c|] eqn:E.
    + destruct (IH c (S i)) as (node & k & Hl & Hk & Hd).
      exists node, (S k). split; [|split].
      * replace (i + S (List.length toks)) with (S i + List.length toks) by lia.
        rewrite Hl. f_equal. lia.
      * lia.
      * econstructor; eauto. now apply findChild_in_some.
    + exists cur, 0. split; [f_equal; lia|]. split; [lia|].
      constructor. now apply findChild_in_none.
Qed.

Lemma descends_unique st cur toks node k :
  descends st cur toks node k ->
  forall node' k', descends st cur toks node' k' -> node' = node /\ k' = k.
Proof.
  induction 1 as [cur|cur tok toks Hno|cur tok toks c node k Hc Hd IH];
    intros node' k' H'; inversion H'; subst; auto.
  - exfalso. match goal with H : first_named _ _ _ _ |- _ =>
      apply first_named_has_name in H; destruct H as [Hin Hn] end.
    eapply Hno; eauto.
  - exfalso. apply first_named_has_name in Hc. destruct Hc as [Hin Hn].
    match goal with H : forall c, In c _ -> _ |- _ => eapply H; eauto end.
  - match goal with H : first_named _ _ _ ?c' |- _ =>
      apply findChild_in_some in H; apply findChild_in_some in Hc;
      rewrite Hc in H; injection H as <- end.
    match goal with H : descends _ c _ _ _ |- _ => apply IH in H; destruct H end.
    split; congruence.
Qed.

Lemma SubRoute_descends st cmd router :
  exists node k,
    SubRoute st cmd router = (Some node, k) /\
    k <= List.length router /\
    descends st cmd router node k.
Proof.
  unfold SubRoute.
  destruct (SubRoute_loop_descends st router cmd 0) as (node & k & H & Hk & Hd).
  exists node, k. auto.
Qed.

Lemma SubRoute_nil st cmd : SubRoute st cmd [] = (Some cmd, 0).
Proof. reflexivity. Qed.

Lemma SubRoute_miss st cmd tok toks :
  findChild st cmd tok = None -> SubRoute st cmd (tok :: toks) = (Some cmd, 0).
Proof. unfold SubRoute. simpl. now intros ->. Qed.

End RoutingFacts.


(** ** Registration *)

Section RegisterFacts.

Variables argv_obj cerr world Writer : Type.
Local Abbreviation store := (store argv_obj cerr world Writer).
Implicit Types (st : store) (cmd : ptr).

Lemma upd_same st p c : upd st p c p = c.
Proof. unfold upd. now rewrite Nat.eqb_refl. Qed.

Lemma upd_other st p c q : q <> p -> upd st p c q = st q.
Proof. unfold upd. intros H. apply Nat.eqb_neq in H. now rewrite H. Qed.

Lemma Name_upd_children st p cs q :
  Name (upd st p (set_children (st p) cs) q) = Name (st q).
Proof. unfold upd. destruct (Nat.eqb_spec q p); subst; reflexivity. Qed.

(** C6. [Register] panics exactly when the child is nil, has an empty name,
    already has a parent, or bears the name of a child the parent already
    has.  Otherwise it returns the child, the parent's children are the
    former ones followed by the child, the child's parent is the parent,
    and no other link and no name changes. *)
Theorem Register_spec st cmd child :
  match Register st cmd child with
  | Panicked _ => Register_rejects st cmd child
  | Done (st', r) =>
      ~ Register_rejects st cmd child /\
      child = Some r /\
      children (st' cmd) = children (st cmd) ++ [r] /\
      parent (st' r) = Some cmd /\
      (forall q, Name (st' q) = Name (st q)) /\
      (forall q, q <> cmd -> children (st' q) = children (st q)) /\
      (forall q, q <> r -> parent (st' q) = parent (st q))
  end.
Proof.
  unfold Register, Register_rejects. destruct child as [c|]; [|exact I].
  destruct (String.eqb_spec (Name (st c)) "") as [E|E]; [now left|].
  destruct (parent (st c)) as [up|] eqn:Ep; [right; left; discriminate|].
  unfold findChild.
  destruct (findChild_in st (children (st cmd)) (Name (st c))) as [x|] eqn:Ef.
  - right; right. apply findChild_in_some, first_named_has_name in Ef.
    exists x. exact Ef.
  - rewrite findChild_in_none in Ef.
    split; [|split; [reflexivity|split; [|split; [|split; [|split]]]]].
    + intros [H|[H|(x & Hx & Hn)]]; [contradiction|congruence|].
      exact (Ef x Hx Hn).
    + unfold upd at 1. destruct (Nat.eqb_spec cmd c) as [->|Hne].
      * rewrite upd_same. reflexivity.
      * rewrite upd_same. reflexivity.
    + rewrite upd_same. reflexivity.
    + intros q. unfold upd at 1. destruct (Nat.eqb_spec q c) as [->|Hq].
      * simpl. apply Name_upd_children.
      * apply Name_upd_children.
    + intros q Hq. unfold upd at 1. destruct (Nat.eqb_spec q c) as [->|Hqc].
      * simpl. now rewrite upd_other.
      * now rewrite upd_other.
    + intros q Hq. rewrite upd_other by assumption.
      unfold upd. destruct (Nat.eqb_spec q cmd); subst; reflexivity.
Qed.

End RegisterFacts.

(** ** [SubRoute] and [Route] *)

Section RouteFacts.

Variables argv_obj cerr world Writer : Type.
Local Abbreviation store := (store argv_obj cerr world Writer).
Local Abbreviation tree_ab := (tree_ab argv_obj cerr world Writer).
Implicit Types (st : store) (cmd : ptr) (router : list string).

Lemma Route_of_SubRoute st cmd router node k :
  SubRoute st cmd router = (Some node, k) ->
  Route st cmd router = if Nat.eqb k (List.length router) then Some node else None.
Proof.
  unfold Route. intros ->. now destruct (Nat.eqb k (List.length router)).
Qed.

(** C1. [SubRoute] goes down token by token to the child named exactly as
    the token and stops at the first token that names no child; it returns
    the node reached and the number of tokens consumed, and that pair is
    the only one the walk allows.  [Route] returns the node when every
    token was consumed and nil otherwise.  On root -> a -> b:
    [SubRoute ["a";"b";"c"]] is (b, 2), [Route ["a";"b";"c"]] is nil and
    [Route ["a";"b"]] is b. *)
Theorem SubRoute_Route_spec st cmd router :
  (exists node k,
      SubRoute st cmd router = (Some node, k) /\
      descends st cmd router node k /\
      (forall node' k', descends st cmd router node' k' <-> node' = node /\ k' = k) /\
      Route st cmd router =
        if Nat.eqb k (List.length router) then Some node else None) /\
  SubRoute tree_ab 0 ["a"; "b"; "c"] = (Some 2, 2) /\
  Route tree_ab 0 ["a"; "b"; "c"] = None /\
  Route tree_ab 0 ["a"; "b"] = Some 2.
Proof.
  split; [|repeat split].
  destruct (SubRoute_descends st cmd router) as (node & k & HS & _ & Hd).
  exists node, k. split; [exact HS|split; [exact Hd|split]].
  - intros node' k'. split.
    + apply (descends_unique Hd).
    + now intros [-> ->].
  - now apply Route_of_SubRoute.
Qed.

End RouteFacts.

(** ** Paths and suggestions *)

Section PathFacts.

Lemma append_nonempty a b : a <> "" -> a +++ b <> "".
Proof. destruct a; simpl; congruence. Qed.

Lemma Join_nonempty l :
  Forall (fun n => n <> "") l -> l <> [] -> Join l " " <> "".
Proof.
  unfold Join. intros Hf Hl. destruct l as [|x l]; [congruence|].
  inversion Hf; subst. simpl. destruct l; auto. now apply append_nonempty.
Qed.

(** Gluing the names from the node upwards gives the non-empty names
    joined by single spaces. *)
Lemma glue_chain chain : fold_right glue "" chain = qualified chain.
Proof.
  unfold qualified. induction chain as [|n chain IH]; simpl; [reflexivity|].
  rewrite IH. unfold glue at 1. destruct (String.eqb_spec n "") as [->|Hn]; simpl.
  - reflexivity.
  - set (l := filter (fun n => negb (String.eqb n "")) chain).
    assert (Hl : Forall (fun n => n <> "") l).
    { apply Forall_forall. intros x Hx. apply filter_In in Hx.
      destruct Hx as [_ Hx]. now destruct (String.eqb_spec x ""). }
    destruct l as [|y l'] eqn:El.
    + reflexivity.
    + destruct (String.eqb_spec (Join (y :: l') " ") "") as [E|E].
      * exfalso. revert E. apply Join_nonempty; [assumption|discriminate].
      * reflexivity.
Qed.

End PathFacts.

Section SuggestionFacts.

Variables argv_obj cerr world Writer : Type.
Local Abbreviation store := (store argv_obj cerr world Writer).
Implicit Types (st : store) (cmd : ptr) (chain : list string).

Lemma Path_loop_above st p chain :
  above st p chain ->
  forall fuel acc,
    List.length chain < fuel ->
    Path_loop fuel st p acc = Some (fold_right glue acc chain).
Proof.
  induction 1 as [p Hp|p up chain Hp Ha IH]; intros fuel acc Hf.
  - destruct fuel; [lia|]. simpl. now rewrite Hp.
  - rewrite length_app in Hf. simpl in Hf.
    destruct fuel; [lia|]. simpl. rewrite Hp.
    rewrite IH by lia. rewrite fold_right_app. simpl. f_equal. f_equal.
    unfold glue. destruct (String.eqb (Name (st p)) ""); reflexivity.
Qed.

Lemma Path_above st p chain fuel :
  above st p chain ->
  List.length chain < fuel ->
  Path fuel st p = Some (qualified chain).
Proof.
  intros Ha Hf. unfold Path. rewrite (Path_loop_above Ha) by assumption.
  now rewrite glue_chain.
Qed.

Lemma Root_reaches st cmd r :
  root_of st cmd r ->
  parent (st r) = None /\
  exists d, forall fuel, d <= fuel -> Root fuel st cmd = Some r.
Proof.
  induction 1 as [p Hp|p up r Hp Hr [Hn (d & IH)]].
  - split; [assumption|]. exists 1. intros [|fuel] Hf; [lia|]. simpl. now rewrite Hp.
  - split; [assumption|]. exists (S d). intros [|fuel] Hf; [lia|]. simpl.
    rewrite Hp. apply IH. lia.
Qed.

Lemma append_paths_children st chain fuel cs ks :
  Forall2 (fun q k => above st q (chain ++ [tname k])) cs ks ->
  List.length chain + 1 < fuel ->
  forall targets,
    append_paths fuel st cs targets =
      Some (targets ++ map (fun k => qualified (chain ++ [tname k])) ks).
Proof.
  intros H Hf. induction H as [|q k cs ks Hq _ IH]; intros targets; simpl.
  - now rewrite app_nil_r.
  - rewrite (Path_above Hq) by (rewrite length_app; simpl; lia).
    rewrite IH, <- app_assoc. reflexivity.
Qed.

Lemma repr_child_above st p chain q k :
  above st p chain -> repr st q (Some p) k -> above st q (chain ++ [tname k]).
Proof.
  intros Ha Hr. inversion Hr as [? ? n ks Hn Hp Hks]; subst. simpl.
  now apply above_step with p.
Qed.

Lemma child_entries_ptr chain cs ks :
  List.length cs = List.length ks ->
  map entry_ptr (child_entries chain cs ks) = cs.
Proof.
  unfold child_entries. revert ks.
  induction cs as [|c cs IH]; intros [|k ks] E; simpl in *; try congruence.
  f_equal. apply IH. lia.
Qed.

Lemma child_entries_found chain cs ks :
  List.length cs = List.length ks ->
  entries_found (child_entries chain cs ks) =
    flat_map (fun k => depth_first (chain ++ [tname k]) k) ks.
Proof.
  unfold child_entries, entries_found. revert ks.
  induction cs as [|c cs IH]; intros [|k ks] E; simpl in *; try congruence.
  f_equal. apply IH. lia.
Qed.

Lemma child_entries_size chain cs ks :
  List.length cs = List.length ks ->
  entries_size (child_entries chain cs ks) = list_sum (map size ks).
Proof.
  unfold child_entries, entries_size. revert ks.
  induction cs as [|c cs IH]; intros [|k ks] E; simpl in *; try congruence.
  f_equal. apply IH. lia.
Qed.

Lemma child_entries_depth chain cs ks :
  entries_depth (child_entries chain cs ks)
    <= List.length chain + S (list_max (map height ks)).
Proof.
  unfold child_entries, entries_depth. revert ks.
  induction cs as [|c cs IH]; intros [|k ks]; simpl; try lia.
  specialize (IH ks). unfold entry_chain at 1. cbn [fst snd].
  rewrite length_app. simpl. lia.
Qed.

Lemma child_entries_ok st p up n ks chain :
  repr st p up (Node n ks) ->
  above st p chain ->
  Forall (entry_ok st) (child_entries chain (children (st p)) ks).
Proof.
  intros Hr Ha. inversion Hr as [? ? ? ? _ _ Hks]; subst. clear Hr.
  unfold child_entries. induction Hks as [|q k cs ks' Hq _ IH]; simpl.
  - constructor.
  - constructor; [|exact IH]. split.
    + exists (Some p). exact Hq.
    + now apply repr_child_above with p.
Qed.

Lemma entries_size_app es fs :
  entries_size (es ++ fs) = entries_size es + entries_size fs.
Proof. unfold entries_size. now rewrite map_app, list_sum_app. Qed.

Lemma entries_depth_app es fs :
  entries_depth (es ++ fs) = Nat.max (entries_depth es) (entries_depth fs).
Proof. unfold entries_depth. now rewrite map_app, list_max_app. Qed.

Lemma entries_found_app es fs :
  entries_found (es ++ fs) = entries_found es ++ entries_found fs.
Proof. unfold entries_found. now rewrite flat_map_app. Qed.

(** The work-list loop visits the entries in order and finds what
    [depth_first] lists, once the fuel covers the commands to visit and the
    length of the longest chain of parents. *)
Lemma collect_entries st :
  forall n es,
    entries_size es <= n ->
    Forall (entry_ok st) es ->
    forall fuel targets,
      entries_size es + entries_depth es < fuel ->
      collect fuel st (map entry_ptr es) targets = Some (targets ++ entries_found es).
Proof.
  induction n as [|n IH]; intros es Hn Hok fuel targets Hf.
  - destruct es as [|[[p chain] [nm ks]] es].
    + destruct fuel; [lia|]. simpl. now rewrite app_nil_r.
    + unfold entries_size in Hn. simpl in Hn. lia.
  - destruct es as [|[[p chain] [nm ks]] es].
    + destruct fuel; [lia|]. simpl. now rewrite app_nil_r.
    + inversion Hok as [|? ? [[up Hr] Ha] Hes]; subst.
      unfold entry_ptr, entry_chain, entry_tree in Hr, Ha. simpl in Hr, Ha.
      change ((p, chain, Node nm ks) :: es)
        with ([(p, chain, Node nm ks)] ++ es) in Hn, Hf |- *.
      rewrite entries_size_app in Hn, Hf. rewrite entries_depth_app in Hf.
      rewrite entries_found_app.
      unfold entries_size at 1 in Hn. unfold entries_size at 1 in Hf.
      unfold entries_depth at 1 in Hf. unfold entries_found at 1.
      unfold entry_tree, entry_chain in Hn, Hf |- *. simpl in Hn, Hf |- *.
      rewrite Nat.max_0_r in Hf. rewrite app_nil_r.
      destruct fuel as [|fuel]; [lia|].
      pose proof (child_entries_ok Hr Ha) as Hkids.
      pose proof (child_entries_depth chain (children (st p)) ks) as Hdepth.
      inversion Hr as [? ? ? ? _ _ Hks]; subst.
      pose proof (Forall2_length Hks) as Hlen.
      cbn [collect map]. change (entry_ptr (p, chain, Node nm ks)) with p.
      unfold nochild. destruct (children (st p)) as [|c cs] eqn:Ecs.
      * destruct ks as [|k ks]; [|discriminate]. simpl.
        apply IH; [lia|assumption|lia].
      * destruct ks as [|k ks]; [discriminate|].
        assert (Hab : Forall2 (fun q k0 => above st q (chain ++ [tname k0]))
                              (c :: cs) (k :: ks)).
        { eapply Forall2_impl; [|exact Hks]. intros q k0.
          now apply repr_child_above. }
        assert (Hsz : 1 <= list_sum (map size (k :: ks))).
        { simpl. destruct k. simpl. lia. }
        rewrite (@append_paths_children st chain fuel _ _ Hab) by lia.
        rewrite <- (child_entries_ptr chain _ _ Hlen) at 1.
        rewrite <- map_app.
        rewrite IH.
        -- rewrite entries_found_app, child_entries_found by assumption.
           now rewrite <- !app_assoc.
        -- rewrite entries_size_app, child_entries_size by assumption. lia.
        -- apply Forall_app. split; assumption.
        -- rewrite entries_size_app, entries_depth_app,
             child_entries_size by assumption. lia.
Qed.

(** From a command without parent that holds the tree [t], the loop of
    [Suggestions] finds the paths in depth-first order. *)
Lemma collect_root st r t fuel :
  repr st r None t ->
  size t + height t < fuel ->
  collect fuel st [r] [] = Some (depth_first [] t).
Proof.
  intros Hr Hf.
  assert (Ha : above st r []) by (inversion Hr; subst; now constructor).
  pose proof (@collect_entries st (size t) [(r, [], t)]) as H.
  unfold entries_size, entries_depth, entries_found, entry_ptr, entry_chain,
    entry_tree in H. simpl in H. rewrite app_nil_r in H.
  apply H.
  - lia.
  - constructor; [|constructor]. split; [now exists None|assumption].
  - lia.
Qed.

End SuggestionFacts.

Section RankingFacts.

Lemma tree_kids_ind (P : tree -> Prop) :
  (forall n ks, Forall P ks -> P (Node n ks)) -> forall t, P t.
Proof.
  intros H. fix IH 1. intros [n ks]. apply H.
  induction ks as [|k ks IHks]; constructor; [apply IH|exact IHks].
Qed.

(** Depth-first discovery lists every command below the root once: it is
    a rearrangement of the listing in which each command comes right
    before its descendants. *)
Lemma depth_first_preorder t :
  forall chain, Permutation (depth_first chain t) (preorder chain t).
Proof.
  induction t as [n ks IH] using tree_kids_ind. intros chain. simpl.
  induction IH as [|k ks Hk _ IHks]; simpl; [constructor|].
  apply perm_skip.
  etransitivity; [apply Permutation_app_swap_app|].
  apply Permutation_app; [apply Hk|exact IHks].
Qed.

Variable match_ : string -> string -> nat * bool.

Lemma accepted_In path targets x :
  In x (accepted match_ path targets) <->
  In (rank_s x) targets /\ match_ path (rank_s x) = (rank_d x, true).
Proof.
  induction targets as [|t targets IH]; simpl; [tauto|].
  destruct (match_ path t) as [d ok] eqn:E. destruct ok; simpl; rewrite IH.
  - split.
    + intros [<-|[H1 H2]]; simpl; auto.
    + intros [[->|H1] H2]; [left|right; auto].
      destruct x as [s d']. simpl in *. congruence.
  - split.
    + intros [H1 H2]; auto.
    + intros [[->|H1] H2]; auto. congruence.
Qed.

Lemma insert_rank_perm x l : Permutation (insert_rank x l) (x :: l).
Proof.
  induction l as [|y l IH]; simpl; [reflexivity|].
  destruct (Nat.ltb (rank_d x) (rank_d y)); [reflexivity|].
  rewrite IH. apply perm_swap.
Qed.

Lemma insert_rank_sorted x l :
  StronglySorted (fun a b => rank_d a <= rank_d b) l ->
  StronglySorted (fun a b => rank_d a <= rank_d b) (insert_rank x l).
Proof.
  induction 1 as [|y l Hl IH Hy]; simpl.
  - repeat constructor.
  - destruct (Nat.ltb_spec (rank_d x) (rank_d y)) as [Hlt|Hge].
    + constructor; [now constructor|]. constructor; [lia|].
      eapply Forall_impl; [|exact Hy]. simpl. intros; lia.
    + constructor; [exact IH|].
      eapply Permutation_Forall; [symmetry; apply insert_rank_perm|].
      constructor; assumption.
Qed.

Lemma insertionSort_loop_sorts rest :
  forall done,
    StronglySorted (fun a b => rank_d a <= rank_d b) done ->
    Permutation (insertionSort_loop done rest) (done ++ rest) /\
    StronglySorted (fun a b => rank_d a <= rank_d b) (insertionSort_loop done rest).
Proof.
  induction rest as [|x rest IH]; intros done Hd; simpl.
  - rewrite app_nil_r. split; [reflexivity|assumption].
  - destruct (IH (insert_rank x done) (insert_rank_sorted x Hd)) as [Hp Hs].
    split; [|exact Hs]. rewrite Hp, insert_rank_perm.
    apply Permutation_middle.
Qed.

Lemma insertionSort_sorts : sorts insertionSort.
Proof.
  intros l. apply (insertionSort_loop_sorts l (done := [])). constructor.
Qed.

(** In a sorted list nothing of greater distance stands before an
    element. *)
Lemma sorted_before (ranks before after : list editDistanceRank) x :
  StronglySorted (fun a b => rank_d a <= rank_d b) ranks ->
  ranks = before ++ x :: after ->
  forall y, In y before -> rank_d y <= rank_d x.
Proof.
  intros Hs. revert before. induction Hs as [|z l Hl IH Hz]; intros before E y Hy.
  - now destruct before.
  - destruct before as [|b before]; [contradiction|].
    injection E as <- ->. destruct Hy as [<-|Hy].
    + rewrite Forall_forall in Hz. apply Hz. apply in_or_app. right. now left.
    + now apply (IH before).
Qed.

End RankingFacts.

Section TieFacts.

(** Inserting into a sorted list puts [x] behind the elements of its own
    distance. *)
Lemma insert_rank_ties x l d :
  StronglySorted (fun a b => rank_d a <= rank_d b) l ->
  filter (fun y => Nat.eqb (rank_d y) d) (insert_rank x l)
  = filter (fun y => Nat.eqb (rank_d y) d) l
      ++ (if Nat.eqb (rank_d x) d then [x] else []).
Proof.
  induction 1 as [|y l Hl IH Hy]; simpl.
  - now destruct (Nat.eqb (rank_d x) d).
  - destruct (Nat.ltb_spec (rank_d x) (rank_d y)) as [Hlt|Hge]; simpl.
    + destruct (Nat.eqb_spec (rank_d x) d) as [Ex|Ex].
      * assert (Hnone : filter (fun y0 => Nat.eqb (rank_d y0) d) l = []).
        { clear IH Hl. induction Hy as [|z l Hz _ IHl]; simpl; [reflexivity|].
          destruct (Nat.eqb_spec (rank_d z) d); [lia|exact IHl]. }
        rewrite Hnone.
        destruct (Nat.eqb_spec (rank_d y) d) as [Ey|Ey]; [lia|reflexivity].
      * now rewrite app_nil_r.
    + rewrite IH. now destruct (Nat.eqb (rank_d y) d).
Qed.

Lemma insertionSort_loop_ties rest d :
  forall done,
    StronglySorted (fun a b => rank_d a <= rank_d b) done ->
    filter (fun y => Nat.eqb (rank_d y) d) (insertionSort_loop done rest)
    = filter (fun y => Nat.eqb (rank_d y) d) (done ++ rest).
Proof.
  induction rest as [|x rest IH]; intros done Hd; simpl.
  - now rewrite app_nil_r.
  - rewrite IH by now apply insert_rank_sorted.
    rewrite !filter_app, insert_rank_ties by assumption. simpl.
    rewrite <- app_assoc. now destruct (Nat.eqb (rank_d x) d).
Qed.

(** Insertion sort keeps the elements of one distance in the order in
    which they came in. *)
Lemma insertionSort_keeps_ties : keeps_ties insertionSort.
Proof.
  intros l d. apply (insertionSort_loop_ties l d (done := [])). constructor.
Qed.

End TieFacts.

Section SuggestionsTheorems.

Variables argv_obj cerr world Writer : Type.
Variable match_ : string -> string -> nat * bool.
Variable sort_Sort : list editDistanceRank -> list editDistanceRank.
Local Abbreviation store := (store argv_obj cerr world Writer).
Local Abbreviation Suggestions :=
  (@Suggestions argv_obj cerr world Writer match_ sort_Sort).
Implicit Types (st : store) (cmd r : ptr).

Lemma root_of_root st cmd r :
  root_of st cmd r -> parent (st cmd) = None -> r = cmd.
Proof. intros H Hp. inversion H; subst; congruence. Qed.

(** On a store that holds a tree, [Suggestions] returns once the fuel is
    large enough, whatever command of the tree it is called on. *)
Lemma Suggestions_total st cmd r t path :
  root_of st cmd r ->
  repr st r None t ->
  exists fuel0, forall fuel,
      fuel0 <= fuel ->
      Suggestions fuel st cmd path =
        Some (map rank_s (sort_Sort (accepted match_ path (depth_first [] t)))).
Proof.
  intros Hroot Hr. destruct (Root_reaches Hroot) as [_ (d & Hd)].
  exists (Nat.max d (S (size t + height t))). intros fuel Hf.
  unfold Suggestions, Suggestions_root.
  destruct (parent (st cmd)) eqn:Ep.
  - rewrite Hd by lia. rewrite (collect_root Hr) by lia. reflexivity.
  - rewrite (root_of_root Hroot Ep) in Hr.
    rewrite (collect_root Hr) by lia. reflexivity.
Qed.

(** The same, with what the loop has found when it ends. *)
Lemma Suggestions_discovery st cmd r t path :
  root_of st cmd r ->
  repr st r None t ->
  exists fuel0, forall fuel,
      fuel0 <= fuel ->
      collect fuel st [r] [] = Some (depth_first [] t) /\
      Suggestions fuel st cmd path =
        Some (map rank_s (sort_Sort (accepted match_ path (depth_first [] t)))).
Proof.
  intros Hroot Hr.
  destruct (Suggestions_total path Hroot Hr) as (fuel0 & Hfuel).
  exists (Nat.max fuel0 (S (size t + height t))). intros fuel Hf.
  split; [apply (collect_root Hr); lia|apply Hfuel; lia].
Qed.

End SuggestionsTheorems.

Section SuggestionsRanked.

Variables argv_obj cerr world Writer : Type.
Variable acceptable : nat -> nat -> nat -> bool.
Variable sort_Sort : list editDistanceRank -> list editDistanceRank.
Local Abbreviation store := (store argv_obj cerr world Writer).
Local Abbreviation Suggestions :=
  (@Suggestions argv_obj cerr world Writer (spec_match acceptable) sort_Sort).
Implicit Types (st : store) (cmd r : ptr).

(** The candidates kept: those whose distance from [path] the threshold
    admits, each with that distance. *)
Lemma accepted_spec_match path targets x :
  In x (accepted (spec_match acceptable) path targets) <->
  In (rank_s x) targets /\
  rank_d x = levenshtein path (rank_s x) /\
  acceptable (rank_d x) (String.length path) (String.length (rank_s x)) = true.
Proof.
  rewrite accepted_In. unfold spec_match. split.
  - intros [Hin [= Hd Hok]]. rewrite Hd in Hok. auto.
  - intros (Hin & Hd & Hok). split; [exact Hin|]. rewrite <- Hd, Hok. reflexivity.
Qed.

(** The candidates kept at distance [d], in the order of [targets]. *)
Lemma accepted_ties path targets d :
  filter (fun x => Nat.eqb (rank_d x) d)
         (accepted (spec_match acceptable) path targets)
  = map (fun s => mkRank s d)
        (filter (fun s => Nat.eqb (levenshtein path s) d
                          && acceptable d (String.length path) (String.length s))
                targets).
Proof.
  induction targets as [|s targets IH]; simpl; [reflexivity|].
  destruct (Nat.eqb_spec (levenshtein path s) d) as [E|E]; simpl.
  - rewrite E.
    destruct (acceptable d (String.length path) (String.length s)); simpl.
    + rewrite Nat.eqb_refl, IH. reflexivity.
    + exact IH.
  - destruct (acceptable (levenshtein path s) (String.length path)
                         (String.length s)); simpl.
    + apply Nat.eqb_neq in E. rewrite E. exact IH.
    + exact IH.
Qed.


End SuggestionsRanked.



(** ** The stages of a dispatch *)

Section StageFacts.

Variables argv_obj cerr world Writer : Type.
Local Abbreviation store := (store argv_obj cerr world Writer).
Implicit Types (st : store) (cmd node : ptr) (args httpMethods : list string).

(** *** The argument split *)

Lemma split_router_spec args :
  exists residual,
    args = split_router args ++ residual /\
    Forall (fun tok => HasPrefix tok dashOne = false) (split_router args) /\
    (residual = [] \/
     exists flag rest, residual = flag :: rest /\ HasPrefix flag dashOne = true).
Proof.
  induction args as [|arg rest (residual & E & Hf & Hr)]; simpl.
  - exists []. repeat split; auto.
  - destruct (HasPrefix arg dashOne) eqn:Ed.
    + exists (arg :: rest). repeat split; auto. right. eauto.
    + exists residual. split; [simpl; now f_equal|]. split; auto.
Qed.

Lemma split_router_length args : List.length (split_router args) <= List.length args.
Proof.
  induction args as [|arg rest IH]; simpl; auto.
  destruct (HasPrefix arg dashOne); simpl; lia.
Qed.

(** The tokens left after [k] router tokens: the rest of the prefix, then
    the residual. *)
Lemma skipn_args args k residual :
  args = split_router args ++ residual ->
  k <= List.length (split_router args) ->
  skipn k args = skipn k (split_router args) ++ residual.
Proof.
  intros E Hk. rewrite E at 1. rewrite skipn_app.
  replace (k - List.length (split_router args)) with 0 by lia. reflexivity.
Qed.

Lemma nothing_to_do_dec st cmd args :
  (Nat.eqb (List.length (split_router args)) 0
   && (match Fn (st cmd) with None => true | Some _ => false end)) = true
  <-> nothing_to_do st cmd args.
Proof.
  unfold nothing_to_do. rewrite andb_true_iff, Nat.eqb_eq.
  destruct (split_router args), (Fn (st cmd)); simpl; intuition congruence.
Qed.

Lemma stops_short_dec st args node k :
  (negb (CanSubRoute (st node))
   && negb (Nat.eqb k (List.length (split_router args)))) = true
  <-> stops_short st args node k.
Proof.
  unfold stops_short.
  rewrite andb_true_iff, !negb_true_iff, Nat.eqb_neq. tauto.
Qed.

Lemma method_in_spec method ms : method_in method ms = true <-> In method ms.
Proof.
  induction ms as [|m ms IH]; simpl; [intuition discriminate|].
  destruct (String.eqb_spec method m); subst; [tauto|].
  rewrite IH. intuition congruence.
Qed.

Lemma methodAllowed_false st node httpMethods :
  methodAllowed st node httpMethods = false <-> method_rejected st node httpMethods.
Proof.
  unfold methodAllowed, method_rejected. destruct httpMethods as [|method rest].
  - split; [discriminate|]. now intros (? & ? & ? & _).
  - destruct (HTTPMethods (st node)) as [|m ms] eqn:E.
    + split; [discriminate|]. intros (? & ? & _ & H & _). now contradiction H.
    + rewrite <- not_true_iff_false, method_in_spec. split.
      * intros H. exists method, rest. repeat split; auto. discriminate.
      * intros (m' & r' & [= <- <-] & _ & H). exact H.
Qed.

Lemma reaches_unique st cmd args node k node' k' :
  reaches st cmd args node k -> reaches st cmd args node' k' ->
  node' = node /\ k' = k.
Proof. unfold reaches. intros -> [= -> ->]. auto. Qed.

Lemma matched_excludes st cmd args node k :
  matched st cmd args node k ->
  ~ nothing_to_do st cmd args /\ ~ stops_short st args node k.
Proof. intros (Hn & _ & Hs). auto. Qed.

Lemma stops_short_not_nothing st cmd args node k :
  k <= List.length (split_router args) ->
  stops_short st args node k -> ~ nothing_to_do st cmd args.
Proof.
  intros Hk [Hne _] [He _]. rewrite He in *. simpl in *. lia.
Qed.

Lemma not_rejected_allowed st node httpMethods :
  ~ method_rejected st node httpMethods -> methodAllowed st node httpMethods = true.
Proof.
  rewrite <- methodAllowed_false. now destruct (methodAllowed st node httpMethods).
Qed.

End StageFacts.

(** ** Dispatch *)

(** Closes a goal whose hypotheses say both that the structural match
    succeeded and that it did not. *)
Ltac not_matched :=
  match goal with
  | Hm : matched _ _ _ _ _ |- _ => destruct Hm as (? & ? & ?); tauto
  end.

Section DispatchFacts.

Variables argv_obj cerr world Writer : Type.
Variable match_ : string -> string -> nat * bool.
Variable sort_Sort : list editDistanceRank -> list editDistanceRank.
Variables Bold Yellow : Color -> string -> string.
Variable parseArgv : list string -> argv_obj -> Color -> flagSet argv_obj cerr.
Variable Validate : argv_obj -> option (option cerr).

Local Abbreviation store := (store argv_obj cerr world Writer).
Local Abbreviation prepared := (prepared argv_obj cerr Writer).
Local Abbreviation prepare :=
  (@prepare argv_obj cerr world Writer match_ sort_Sort Bold Yellow parseArgv Validate).
Local Abbreviation route_failed :=
  (@route_failed argv_obj cerr world Writer match_ sort_Sort Bold Yellow).
Local Abbreviation newContext := (@newContext argv_obj cerr Writer parseArgv).
Local Abbreviation validate := (@validate argv_obj cerr Writer Validate).
Local Abbreviation closure_case :=
  (@closure_case argv_obj cerr world Writer match_ sort_Sort Bold Yellow
                 parseArgv Validate).
Local Abbreviation Suggestions :=
  (@Suggestions argv_obj cerr world Writer match_ sort_Sort).
Implicit Types (st : store) (cmd node : ptr) (args httpMethods : list string).

(** *** The branches of the closure *)

Lemma prepare_nothing fuel st cmd args writer clr httpMethods :
  nothing_to_do st cmd args ->
  prepare fuel st cmd args writer clr httpMethods =
    Some (mkPrepared (Some (CommandNotFound (Yellow clr (Name (st cmd))))) None "").
Proof.
  intros H. apply nothing_to_do_dec in H. unfold prepare.
  now rewrite H.
Qed.

Lemma prepare_stops_short fuel st cmd args writer clr httpMethods node k :
  ~ nothing_to_do st cmd args ->
  reaches st cmd args node k ->
  stops_short st args node k ->
  prepare fuel st cmd args writer clr httpMethods =
    route_failed fuel st cmd (Join (split_router args) " ") clr.
Proof.
  intros Hn Hr Hs. rewrite <- nothing_to_do_dec in Hn.
  apply not_true_is_false in Hn. apply stops_short_dec in Hs.
  unfold prepare. rewrite Hn. unfold reaches in Hr. rewrite Hr.
  now rewrite Hs.
Qed.

Lemma prepare_matched fuel st cmd args writer clr httpMethods node k :
  matched st cmd args node k ->
  prepare fuel st cmd args writer clr httpMethods =
    if negb (methodAllowed st node httpMethods) then
      Some (mkPrepared
              (Some (MethodNotAllowed (Yellow clr (hd "" httpMethods)))) None "")
    else
      match newContext (Join (split_router args) " ")
                       (firstn k (split_router args)) (skipn k args)
                       (make_argv st node) clr with
      | inr tmpErr => Some (mkPrepared (Some tmpErr) None "")
      | inl ctx =>
          match validate (make_argv st node) ctx with
          | Some e => Some (mkPrepared (Some e) (Some ctx) "")
          | None =>
              Some (mkPrepared None (Some (set_command_writer ctx node writer)) "")
          end
      end.
Proof.
  intros (Hn & Hr & Hs). rewrite <- nothing_to_do_dec in Hn.
  apply not_true_is_false in Hn. rewrite <- stops_short_dec in Hs.
  apply not_true_is_false in Hs.
  unfold prepare. rewrite Hn. unfold reaches in Hr. rewrite Hr.
  now rewrite Hs.
Qed.

(** Every dispatch is in exactly one of three situations. *)
Lemma dispatch_cases st cmd args :
  exists node k,
    reaches st cmd args node k /\
    k <= List.length (split_router args) /\
    (nothing_to_do st cmd args \/
     (~ nothing_to_do st cmd args /\ stops_short st args node k) \/
     matched st cmd args node k).
Proof.
  destruct (SubRoute_descends st cmd (split_router args)) as (node & k & HS & Hk & _).
  exists node, k. split; [exact HS|split; [exact Hk|]].
  destruct (Nat.eqb (List.length (split_router args)) 0
            && (match Fn (st cmd) with None => true | Some _ => false end)) eqn:En.
  - left. now apply nothing_to_do_dec.
  - assert (Hn : ~ nothing_to_do st cmd args).
    { rewrite <- nothing_to_do_dec. congruence. }
    destruct (negb (CanSubRoute (st node))
              && negb (Nat.eqb k (List.length (split_router args)))) eqn:Es.
    + right; left. split; auto. now apply stops_short_dec.
    + right; right. repeat split; auto. rewrite <- stops_short_dec. congruence.
Qed.

Lemma newContext_inr path router args argv clr e :
  newContext path router args argv clr = inr e -> exists ce, e = Collab ce.
Proof.
  unfold newContext. destruct argv as [obj|]; [|discriminate].
  simpl. destruct (fs_err (parseArgv args obj clr)) as [ce|]; [|discriminate].
  intros [= <-]. now exists ce.
Qed.

Lemma newContext_inl path router args argv clr ctx :
  newContext path router args argv clr = inl ctx ->
  ctx_path ctx = path /\ ctx_router ctx = router /\ ctx_nativeArgs ctx = args /\
  ctx_color ctx = clr /\ ctx_command ctx = None /\
  match argv with
  | Some obj =>
      ctx_flagSet ctx = Some (parseArgv args obj clr) /\
      ctx_argv ctx = Some (fs_argv (parseArgv args obj clr)) /\
      fs_err (parseArgv args obj clr) = None
  | None => ctx_flagSet ctx = None /\ ctx_argv ctx = None
  end.
Proof.
  unfold newContext. destruct argv as [obj|]; simpl.
  - destruct (fs_err (parseArgv args obj clr)) as [ce|] eqn:E; [discriminate|].
    intros [= <-]. simpl. repeat split; assumption.
  - intros [= <-]. simpl. repeat split.
Qed.

Lemma validate_Collab argv ctx e :
  validate argv ctx = Some e -> exists ce, e = Collab ce.
Proof.
  unfold validate. destruct argv; [|discriminate].
  destruct (ctx_flagSet ctx) as [fs|]; [|discriminate].
  destruct (negb (fs_dontValidate fs)); [|discriminate].
  destruct (Validate (fs_argv fs)) as [[ce|]|]; try discriminate.
  intros [= <-]. now exists ce.
Qed.

(** The closure returns what one of the six cases says. *)
Lemma prepare_cases fuel st cmd args writer clr httpMethods p :
  prepare fuel st cmd args writer clr httpMethods = Some p ->
  exists node k,
    reaches st cmd args node k /\
    k <= List.length (split_router args) /\
    closure_case fuel st cmd args writer clr httpMethods node k p.
Proof.
  intros Hp. destruct (dispatch_cases st cmd args) as (node & k & Hr & Hk & Hc).
  exists node, k. split; [exact Hr|split; [exact Hk|]].
  destruct Hc as [Hn|[[Hn Hs]|Hm]].
  - rewrite prepare_nothing in Hp by assumption. injection Hp as <-.
    now constructor.
  - rewrite (prepare_stops_short fuel writer clr httpMethods Hn Hr Hs) in Hp.
    unfold route_failed in Hp.
    destruct (Suggestions fuel st cmd (Join (split_router args) " "))
      as [suggestions|] eqn:Es; [|discriminate].
    injection Hp as <-. now constructor.
  - rewrite (prepare_matched fuel writer clr httpMethods Hm) in Hp.
    destruct (methodAllowed st node httpMethods) eqn:Ea; simpl in Hp.
    + assert (Hok : ~ method_rejected st node httpMethods).
      { rewrite <- methodAllowed_false. congruence. }
      destruct (newContext (Join (split_router args) " ")
                           (firstn k (split_router args)) (skipn k args)
                           (make_argv st node) clr) as [ctx|e] eqn:En.
      * destruct (validate (make_argv st node) ctx) as [e|] eqn:Ev.
        -- destruct (validate_Collab _ _ Ev) as [ce ->].
           injection Hp as <-. now apply case_validate.
        -- injection Hp as <-. now apply case_ready.
      * destruct (newContext_inr _ _ _ _ _ En) as [ce ->].
        injection Hp as <-. now apply case_parse.
    + apply methodAllowed_false in Ea. destruct Ea as (method & rest & E & Hne & Hni).
      injection Hp as <-. rewrite E. simpl.
      apply case_method with rest; auto. exists method, rest. now rewrite <- E.
Qed.

(** A structural match does not depend on the fuel: the closure returns. *)
Lemma prepare_matched_returns fuel st cmd args writer clr httpMethods node k :
  matched st cmd args node k ->
  exists p, prepare fuel st cmd args writer clr httpMethods = Some p.
Proof.
  intros Hm. rewrite (prepare_matched fuel writer clr httpMethods Hm).
  destruct (negb (methodAllowed st node httpMethods)); [eauto|].
  destruct (newContext _ _ _ _ _); [|eauto].
  destruct (validate _ _); eauto.
Qed.

(** The closure returns on a store that holds a tree, once the fuel is
    large enough for [Suggestions]. *)
Lemma prepare_returns st cmd r t args writer clr httpMethods :
  root_of st cmd r ->
  repr st r None t ->
  exists fuel0, forall fuel,
      fuel0 <= fuel ->
      exists p, prepare fuel st cmd args writer clr httpMethods = Some p.
Proof.
  intros Hroot Hr.
  destruct (Suggestions_total match_ sort_Sort (Join (split_router args) " ")
                              Hroot Hr) as (fuel0 & Hs).
  exists fuel0. intros fuel Hf.
  destruct (dispatch_cases st cmd args) as (node & k & Hre & Hk & Hc).
  destruct Hc as [Hn|[[Hn Hss]|Hm]].
  - rewrite prepare_nothing by assumption. eauto.
  - rewrite (prepare_stops_short fuel writer clr httpMethods Hn Hre Hss).
    unfold route_failed. rewrite Hs by assumption. eauto.
  - now apply prepare_matched_returns with node k.
Qed.

(** A context left behind by the closure comes from [newContext] on a
    structural match. *)
Lemma prepare_ctx fuel st cmd args writer clr httpMethods p ctx :
  prepare fuel st cmd args writer clr httpMethods = Some p ->
  p_ctx p = Some ctx ->
  exists node k ctx0,
    matched st cmd args node k /\
    k <= List.length (split_router args) /\
    newContext (Join (split_router args) " ") (firstn k (split_router args))
               (skipn k args) (make_argv st node) clr = inl ctx0 /\
    (ctx = ctx0 \/ ctx = set_command_writer ctx0 node writer).
Proof.
  intros Hp Hctx.
  destruct (prepare_cases _ _ _ _ _ _ _ Hp) as (node & k & Hr & Hk & Hc).
  destruct Hc as [Hn|suggestions Hn Hs Hsug|method rest Hm Hrej E|e Hm Hok En
                  |ctx0 e Hm Hok En Ev|ctx0 Hm Hok En Ev]; simpl in Hctx;
    try discriminate; injection Hctx as <-; exists node, k, ctx0; auto.
Qed.

(** C3, as the code has it.  The router prefix is the tokens before the
    first token that starts with a dash.  The tokens handed to the parser
    are those not consumed by routing: the rest of the router prefix, then
    everything from the first flag token on; they are the flag tokens alone
    when routing consumed the whole prefix.  With an empty prefix and no
    handler the closure fails at once with CommandNotFound, whatever the
    fuel and the tree. *)
Theorem router_prefix_and_residual fuel st cmd args writer clr httpMethods :
  exists residual,
    args = split_router args ++ residual /\
    Forall (fun tok => HasPrefix tok dashOne = false) (split_router args) /\
    (residual = [] \/
     exists flag rest, residual = flag :: rest /\ HasPrefix flag dashOne = true) /\
    (nothing_to_do st cmd args ->
     prepare fuel st cmd args writer clr httpMethods =
       Some (mkPrepared (Some (CommandNotFound (Yellow clr (Name (st cmd)))))
                        None "")) /\
    (forall p ctx,
        prepare fuel st cmd args writer clr httpMethods = Some p ->
        p_ctx p = Some ctx ->
        exists node k,
          reaches st cmd args node k /\
          Context_Args ctx = skipn k (split_router args) ++ residual /\
          (k = List.length (split_router args) -> Context_Args ctx = residual) /\
          match make_argv st node with
          | Some obj =>
              ctx_flagSet ctx =
                Some (parseArgv (skipn k (split_router args) ++ residual) obj clr)
          | None => ctx_flagSet ctx = None
          end).
Proof.
  destruct (split_router_spec args) as (residual & E & Hf & Hres).
  exists residual. split; [exact E|split; [exact Hf|split; [exact Hres|split]]].
  - apply prepare_nothing.
  - intros p ctx Hp Hctx.
    destruct (prepare_ctx _ _ _ _ _ _ _ Hp Hctx)
      as (node & k & ctx0 & Hm & Hk & En & Hc).
    exists node, k. split; [apply Hm|].
    apply newContext_inl in En.
    destruct En as (_ & _ & Hargs & _ & _ & Hfs).
    rewrite (skipn_args _ E Hk) in Hargs, Hfs.
    assert (Ha : Context_Args ctx = skipn k (split_router args) ++ residual).
    { unfold Context_Args. destruct Hc as [->| ->]; simpl; assumption. }
    split; [exact Ha|]. split.
    + intros ->. now rewrite Ha, skipn_all.
    + destruct (make_argv st node); destruct Hc as [->| ->]; simpl; tauto.
Qed.

Lemma context_of_closure fuel st cmd args writer clr httpMethods p ctx :
  prepare fuel st cmd args writer clr httpMethods = Some p ->
  p_ctx p = Some ctx ->
  exists node k,
    reaches st cmd args node k /\
    Context_Router ctx = firstn k (split_router args) /\
    Context_Args ctx = skipn k args /\
    Context_Router ctx ++ Context_Args ctx = args /\
    Context_Path ctx = Join (split_router args) " " /\
    (k = List.length (split_router args) ->
     Context_Path ctx = Join (Context_Router ctx) " ").
Proof.
  intros Hp Hctx.
  destruct (prepare_ctx _ _ _ _ _ _ _ Hp Hctx)
    as (node & k & ctx0 & Hm & Hk & En & Hc).
  exists node, k. split; [apply Hm|].
  apply newContext_inl in En. destruct En as (Hpath & Hrouter & Hargs & _).
  assert (H : Context_Router ctx = firstn k (split_router args) /\
              Context_Args ctx = skipn k args /\
              Context_Path ctx = Join (split_router args) " ").
  { unfold Context_Router, Context_Args, Context_Path.
    destruct Hc as [->| ->]; simpl; auto. }
  destruct H as (Hr & Ha & Hpa). rewrite Hr, Ha, Hpa.
  repeat split; auto.
  - destruct (split_router_spec args) as (residual & E & _).
    rewrite (skipn_args _ E Hk), app_assoc, firstn_skipn. now symmetry.
  - intros ->. now rewrite firstn_all.
Qed.

(** The fields of the context the closure builds.  [Router] is the tokens
    consumed by routing, [Args] the tokens not consumed, and the two
    together are the argument list; [Path] is the whole router prefix
    joined by spaces, which is the join of the consumed tokens only when
    routing consumed the whole prefix.  Dispatching
    ["hello"; "world"; "-a"; "--xyz=1"] on hello -> world gives the path
    "hello world", the router ["hello"; "world"] and the arguments
    ["-a"; "--xyz=1"]. *)
Theorem context_fields fuel st cmd args writer clr httpMethods :
  (forall p ctx,
      prepare fuel st cmd args writer clr httpMethods = Some p ->
      p_ctx p = Some ctx ->
      exists node k,
        reaches st cmd args node k /\
        Context_Router ctx = firstn k (split_router args) /\
        Context_Args ctx = skipn k args /\
        Context_Router ctx ++ Context_Args ctx = args /\
        Context_Path ctx = Join (split_router args) " " /\
        (k = List.length (split_router args) ->
         Context_Path ctx = Join (Context_Router ctx) " ")) /\
  (exists ctx,
      option_map (@p_ctx _ _ _)
        (Demo.prepare 0 Demo.hello_world 0 ["hello"; "world"; "-a"; "--xyz=1"]
                      false false []) = Some (Some ctx) /\
      Context_Path ctx = "hello world" /\
      Context_Router ctx = ["hello"; "world"] /\
      Context_Args ctx = ["-a"; "--xyz=1"] /\
      Context_Command ctx = Some 2).
Proof.
  split.
  - intros p ctx. apply context_of_closure.
  - eexists. split; [reflexivity|]. repeat split.
Qed.

(** C7.  On a structural match the closure returns; it fails with
    MethodNotAllowed, naming the first method supplied, when a method is
    supplied, the matched command declares methods and the method is not
    among them, and with nothing of that kind otherwise; no method or no
    declared methods means no rejection.  MethodNotAllowed never comes
    without a structural match. *)
Theorem method_gate fuel st cmd args writer clr httpMethods :
  (forall node k,
      matched st cmd args node k ->
      exists p,
        prepare fuel st cmd args writer clr httpMethods = Some p /\
        (method_rejected st node httpMethods ->
         exists method rest,
           httpMethods = method :: rest /\
           p = mkPrepared (Some (MethodNotAllowed (Yellow clr method))) None "") /\
        (~ method_rejected st node httpMethods ->
         forall what, p_err p <> Some (MethodNotAllowed what)) /\
        (httpMethods = [] \/ HTTPMethods (st node) = [] ->
         ~ method_rejected st node httpMethods)) /\
  (forall p what,
      prepare fuel st cmd args writer clr httpMethods = Some p ->
      p_err p = Some (MethodNotAllowed what) ->
      exists node k,
        matched st cmd args node k /\ method_rejected st node httpMethods).
Proof.
  split.
  - intros node k Hm.
    destruct (prepare_matched_returns fuel writer clr httpMethods Hm) as [p Hp].
    exists p. split; [exact Hp|].
    destruct (prepare_cases _ _ _ _ _ _ _ Hp) as (node' & k' & Hr & _ & Hc).
    destruct (reaches_unique (proj1 (proj2 Hm)) Hr) as [-> ->].
    split; [|split].
    + intros Hrej.
      destruct Hc as [Hn|suggestions Hn Hs Hsug|method rest _ _ E|e _ Hok En
                      |ctx0 e _ Hok En Ev|ctx0 _ Hok En Ev];
        try not_matched; try contradiction.
      exists method, rest. auto.
    + intros Hok what.
      destruct Hc as [Hn|suggestions Hn Hs Hsug|method rest _ Hrej E|e _ _ En
                      |ctx0 e _ _ En Ev|ctx0 _ _ En Ev];
        simpl; try discriminate. contradiction.
    + intros [->|E] (method & rest & E' & Hne & _); congruence.
  - intros p what Hp He.
    destruct (prepare_cases _ _ _ _ _ _ _ Hp) as (node & k & Hr & _ & Hc).
    destruct Hc as [Hn|suggestions Hn Hs Hsug|method rest Hm Hrej E|e Hm _ En
                    |ctx0 e Hm _ En Ev|ctx0 Hm _ En Ev];
      simpl in He; try discriminate.
    exists node, k. auto.
Qed.

(** C10.  [SubRoute] always returns a command, never nil, and a count
    that does not exceed the number of tokens; on no tokens, and when the
    first token names no child, it returns the receiver and 0.  So the
    closure never fails for want of a command: a CommandNotFound comes
    from the empty router prefix of a command without handler, or from
    stopping short at a command that is not sub-routable. *)
Theorem SubRoute_total st cmd router :
  (exists node k,
      SubRoute st cmd router = (Some node, k) /\ k <= List.length router) /\
  SubRoute st cmd [] = (Some cmd, 0) /\
  (forall tok toks,
      findChild st cmd tok = None ->
      SubRoute st cmd (tok :: toks) = (Some cmd, 0)) /\
  (forall fuel args writer clr httpMethods p what,
      prepare fuel st cmd args writer clr httpMethods = Some p ->
      p_err p = Some (CommandNotFound what) ->
      nothing_to_do st cmd args \/
      exists node k,
        SubRoute st cmd (split_router args) = (Some node, k) /\
        k < List.length (split_router args) /\
        CanSubRoute (st node) = false).
Proof.
  split; [|split; [|split]].
  - destruct (SubRoute_descends st cmd router) as (node & k & H & Hk & _).
    exists node, k. auto.
  - apply SubRoute_nil.
  - intros tok toks. apply SubRoute_miss.
  - intros fuel args writer clr httpMethods p what Hp He.
    destruct (prepare_cases _ _ _ _ _ _ _ Hp) as (node & k & Hr & Hk & Hc).
    destruct Hc as [Hn|suggestions Hn [Hne Hcan] Hsug|method rest Hm Hrej E|e Hm Hok En
                    |ctx0 e Hm Hok En Ev|ctx0 Hm Hok En Ev];
      simpl in He; try discriminate.
    + now left.
    + right. exists node, k. split; [exact Hr|]. split; [lia|exact Hcan].
Qed.

End DispatchFacts.

(** ** The driver *)

Section RunFacts.

Variables argv_obj cerr world Writer : Type.
Variable match_ : string -> string -> nat * bool.
Variable sort_Sort : list editDistanceRank -> list editDistanceRank.
Variables Bold Yellow : Color -> string -> string.
Variable parseArgv : list string -> argv_obj -> Color -> flagSet argv_obj cerr.
Variable Validate : argv_obj -> option (option cerr).
Variable wrapErr : error cerr -> string -> Color -> error cerr.
Variable NewColorableStdout : Writer.
Variable isTerminalFile : Writer -> bool.

Local Abbreviation store := (store argv_obj cerr world Writer).
Local Abbreviation prepare :=
  (@prepare argv_obj cerr world Writer match_ sort_Sort Bold Yellow parseArgv Validate).
Local Abbreviation newContext := (@newContext argv_obj cerr Writer parseArgv).
Local Abbreviation validate := (@validate argv_obj cerr Writer Validate).
Local Abbreviation Suggestions :=
  (@Suggestions argv_obj cerr world Writer match_ sort_Sort).
Local Abbreviation RunWithWriter :=
  (@RunWithWriter argv_obj cerr world Writer match_ sort_Sort Bold Yellow
                  parseArgv Validate wrapErr NewColorableStdout isTerminalFile).
Local Abbreviation the_writer wopt :=
  (match wopt with None => NewColorableStdout | Some wr => wr end).
Local Abbreviation the_color wopt := (colorSwitch isTerminalFile (the_writer wopt)).
Implicit Types (st : store) (cmd node : ptr) (args httpMethods : list string).
Implicit Types (wopt : option Writer).

(** What [RunWithWriter] does with the closure's result. *)
Lemma RunWithWriter_error fuel st cmd args wopt httpMethods w p e :
  prepare fuel st cmd args (the_writer wopt) (the_color wopt) httpMethods = Some p ->
  p_err p = Some e ->
  RunWithWriter fuel st cmd args wopt httpMethods w =
    Some (Done (Some (wrapErr e (p_suggestion p) (the_color wopt))), w).
Proof.
  intros Hp He. unfold RunWithWriter. rewrite Hp, He. reflexivity.
Qed.

(** C2, as the code has it.  The closure fails with CommandNotFound
    exactly when there is nothing to do (empty router prefix, no handler)
    or routing stops short at a command that is not sub-routable; [SubRoute]
    always finds a command.  In the second case the suggestions are those
    for the space-joined router prefix and their rendering goes with the
    error into [wrapErr]; in the first case no suggestion is made.  On a
    store that holds a tree the closure returns. *)
Theorem CommandNotFound_iff fuel st cmd args wopt httpMethods w p :
  prepare fuel st cmd args (the_writer wopt) (the_color wopt) httpMethods = Some p ->
  (exists node k,
      reaches st cmd args node k /\
      ((exists what, p_err p = Some (CommandNotFound what)) <->
       nothing_to_do st cmd args \/ stops_short st args node k) /\
      (stops_short st args node k ->
       exists suggestions,
         Suggestions fuel st cmd (Join (split_router args) " ") = Some suggestions /\
         p = mkPrepared
               (Some (CommandNotFound
                        (Yellow (the_color wopt) (Join (split_router args) " "))))
               None (render_suggestions Bold (the_color wopt) suggestions) /\
         RunWithWriter fuel st cmd args wopt httpMethods w =
           Some (Done (Some (wrapErr
                               (CommandNotFound
                                  (Yellow (the_color wopt)
                                          (Join (split_router args) " ")))
                               (render_suggestions Bold (the_color wopt) suggestions)
                               (the_color wopt))), w)) /\
      (nothing_to_do st cmd args ->
       p = mkPrepared
             (Some (CommandNotFound (Yellow (the_color wopt) (Name (st cmd)))))
             None "")) /\
  (forall r t,
      root_of st cmd r -> repr st r None t ->
      exists fuel0, forall fuel',
          fuel0 <= fuel' ->
          exists p', prepare fuel' st cmd args (the_writer wopt) (the_color wopt)
                             httpMethods = Some p').
Proof.
  intros Hp. split; [|intros r t; apply prepare_returns].
  destruct (prepare_cases _ _ _ _ _ _ _ _ _ _ _ _ _ Hp) as (node & k & Hr & Hk & Hc).
  exists node, k. split; [exact Hr|].
  destruct Hc as [Hn|suggestions Hn Hs Hsug|method rest Hm Hrej E|e Hm Hok En
                  |ctx e Hm Hok En Ev|ctx Hm Hok En Ev]; simpl.
  - split; [split; eauto|]. split; [|reflexivity].
    intros Hs. exfalso. now apply (stops_short_not_nothing (cmd := cmd) Hk Hs).
  - split; [split; eauto|]. split; [|intros; contradiction].
    intros _. exists suggestions. split; [exact Hsug|]. split; [reflexivity|].
    now rewrite (@RunWithWriter_error fuel st cmd args wopt httpMethods w _ _ Hp eq_refl).
  - split; [split; [intros [? [=]]|intros; not_matched]|].
    split; intros; not_matched.
  - split; [split; [intros [? [=]]|intros; not_matched]|].
    split; intros; not_matched.
  - split; [split; [intros [? [=]]|intros; not_matched]|].
    split; intros; not_matched.
  - split; [split; [intros [? [=]]|intros; not_matched]|].
    split; intros; not_matched.
Qed.

Lemma RunWithWriter_ready fuel st cmd args wopt httpMethods w p ctx node fn :
  prepare fuel st cmd args (the_writer wopt) (the_color wopt) httpMethods = Some p ->
  p_err p = None ->
  p_ctx p = Some ctx ->
  ctx_command ctx = Some node ->
  Fn (st node) = Some fn ->
  RunWithWriter fuel st cmd args wopt httpMethods w =
    Some (Done (fst (fn ctx w)), snd (fn ctx w)).
Proof.
  intros Hp He Hc Hn Hf. unfold RunWithWriter.
  rewrite Hp, He, Hc, Hn, Hf. now destruct (fn ctx w).
Qed.


End RunFacts.

(** ** Usage text *)

Section UsageFacts.

Variables argv_obj cerr world Writer : Type.
Variable Bold : Color -> string -> string.
Variable usage_argv : option argv_obj -> Color -> string.
Variable RuneCount : string -> nat.

Local Abbreviation store := (store argv_obj cerr world Writer).
Local Abbreviation Context := (Context argv_obj cerr Writer).
Local Abbreviation Usage :=
  (@Usage argv_obj cerr world Writer Bold usage_argv RuneCount).
Local Abbreviation build_usage :=
  (@build_usage argv_obj cerr world Writer Bold usage_argv RuneCount).
Implicit Types (st : store) (cmd : ptr) (ctxs : list Context).

Lemma append_empty a b : a +++ b = "" -> a = "" /\ b = "".
Proof. destruct a; simpl; [auto|discriminate]. Qed.

Lemma append_colon_nonempty a b : a +++ ":" +++ b <> "".
Proof. intros H. apply append_empty in H. destruct H as [_ H]. discriminate. Qed.

Lemma set_usage_same (c : Command argv_obj cerr world Writer) :
  set_usage c (usage c) = c.
Proof. now destruct c. Qed.

(** An empty usage text comes from a command without description, text,
    argument factory and children; such a command yields the empty text in
    every colour and without calling the collaborator. *)
Lemma build_usage_empty st cmd clr :
  fst (build_usage st cmd clr) = "" ->
  Desc (st cmd) = "" /\ Text (st cmd) = "" /\ Argv (st cmd) = None /\
  children (st cmd) = [].
Proof.
  unfold build_usage.
  destruct (String.eqb_spec (Desc (st cmd)) "") as [Ed|Ed]; simpl.
  2:{ destruct (Argv (st cmd)); simpl; intros H; apply append_empty in H;
      destruct H as [H _]; apply append_empty in H; tauto. }
  destruct (String.eqb_spec (Text (st cmd)) "") as [Et|Et]; simpl.
  2:{ destruct (Argv (st cmd)); simpl; intros H; apply append_empty in H;
      destruct H as [H _]; apply append_empty in H; tauto. }
  destruct (Argv (st cmd)) as [mk|]; simpl.
  - intros H. apply append_empty in H. destruct H as [H _].
    exfalso. revert H. apply append_colon_nonempty.
  - destruct (children (st cmd)); simpl; [auto|].
    intros H. exfalso. revert H. apply append_colon_nonempty.
Qed.

Lemma build_usage_bare st cmd clr :
  Desc (st cmd) = "" -> Text (st cmd) = "" -> Argv (st cmd) = None ->
  children (st cmd) = [] ->
  build_usage st cmd clr = ("", 0).
Proof.
  intros Hd Ht Ha Hc. unfold build_usage. now rewrite Hd, Ht, Ha, Hc.
Qed.

Lemma Usage_twice st cmd ctxs1 ctxs2 text1 st1 calls1 text2 st2 calls2 :
  Usage st cmd ctxs1 = (text1, st1, calls1) ->
  Usage st1 cmd ctxs2 = (text2, st2, calls2) ->
  text2 = text1 /\ text2 = usage (st1 cmd) /\ calls2 = 0 /\
  forall q, st2 q = st1 q.
Proof.
  intros H1 H2.
  unfold Usage in H1.
  destruct (String.eqb_spec (usage (st cmd)) "") as [Ec|Ec]; simpl in H1.
  - destruct (build_usage st cmd
                (match ctxs1 with c :: _ => ctx_color c | [] => Disable false end))
      as [text calls] eqn:Eb.
    injection H1 as <- <- <-.
    unfold Usage in H2. rewrite upd_same in H2. simpl in H2.
    destruct (String.eqb_spec text "") as [Et|Et]; simpl in H2.
    + subst text.
      assert (Hb : fst (build_usage st cmd
                (match ctxs1 with c :: _ => ctx_color c | [] => Disable false end))
                   = "") by now rewrite Eb.
      apply build_usage_empty in Hb. destruct Hb as (Hd & Ht & Ha & Hc).
      rewrite build_usage_bare in H2
        by (rewrite upd_same; simpl; assumption).
      injection H2 as <- <- <-. rewrite upd_same. simpl.
      repeat split; auto.
      intros q. unfold upd. destruct (Nat.eqb q cmd); reflexivity.
    + injection H2 as <- <- <-. rewrite upd_same. simpl. repeat split; auto.
  - injection H1 as <- <- <-.
    unfold Usage in H2.
    destruct (String.eqb_spec (usage (st cmd)) "") as [Ec'|Ec']; [contradiction|].
    simpl in H2. injection H2 as <- <- <-. repeat split; auto.
Qed.

(** C8.  A second call of [Usage], in whatever colour, returns the text of
    the first call, which is the text stored in the command; it calls the
    collaborator [usage] not once and leaves the store as it is.  On the
    documented command a first call in colour stores the styled text, and a
    later call without colour still returns it, though a first call without
    colour would have given plain text. *)
Theorem Usage_memoized st cmd ctxs1 ctxs2 :
  (let '(text1, st1, _) := Usage st cmd ctxs1 in
   let '(text2, st2, calls2) := Usage st1 cmd ctxs2 in
   text2 = text1 /\ text2 = usage (st1 cmd) /\ calls2 = 0 /\
   forall q, st2 q = st1 q) /\
  (let '(text1, st1, calls1) :=
     Demo.Usage Demo.documented 0 [Demo.colored true] in
   let '(text2, _, calls2) := Demo.Usage st1 0 [Demo.colored false] in
   let '(plain_text, _, _) := Demo.Usage Demo.documented 0 [Demo.colored false] in
   calls1 = 1 /\ text2 = text1 /\ calls2 = 0 /\
   String.eqb text2 plain_text = false).
Proof.
  split; [|vm_compute; auto].
  destruct (Usage st cmd ctxs1) as [[text1 st1] calls1] eqn:H1.
  destruct (Usage st1 cmd ctxs2) as [[text2 st2] calls2] eqn:H2.
  now apply Usage_twice with (1 := H1) (2 := H2).
Qed.

End UsageFacts.

(** ** The properties at concrete dispatches *)

(** [CommandNotFound_iff] at the dispatch of ["a"; "x"] on root -> a -> b:
    routing stops short at [a], which is not sub-routable. *)
Lemma CommandNotFound_iff_witness :
  exists p,
    Demo.prepare 5 Demo.ab 0 ["a"; "x"] false false [] = Some p /\
    p_err p = Some (CommandNotFound "a x") /\
    exists node k,
      reaches Demo.ab 0 ["a"; "x"] node k /\
      ((exists what, p_err p = Some (CommandNotFound what)) <->
       nothing_to_do Demo.ab 0 ["a"; "x"] \/ stops_short Demo.ab ["a"; "x"] node k).
Proof.
  eexists. split; [reflexivity|]. split; [reflexivity|].
  destruct (@CommandNotFound_iff
              Demo.argv_obj Demo.cerr Demo.world Demo.Writer Demo.match_
              insertionSort Demo.Bold Demo.Yellow Demo.parseArgv Demo.Validate
              Demo.wrapErr Demo.NewColorableStdout Demo.isTerminalFile
              5 Demo.ab 0 ["a"; "x"] None [] [] _ eq_refl)
    as [(node & k & Hr & Hiff & _) _].
  exists node, k. split; [exact Hr|exact Hiff].
Defined.

(** C2 as stated fails: with no argument and no handler on the root the
    dispatch fails with CommandNotFound although [SubRoute] finds the root
    and leaves no token unconsumed, and no suggestion is made. *)
Lemma CommandNotFound_with_nothing_to_do :
  Demo.prepare 5 Demo.ab 0 [] false false []
    = Some (mkPrepared (Some (CommandNotFound "app")) None "") /\
  SubRoute Demo.ab 0 (split_router []) = (Some 0, 0) /\
  List.length (split_router []) = 0 /\
  Demo.RunWithWriter 5 Demo.ab 0 [] None [] []
    = Some (Done (Some (CommandNotFound "app")), []).
Proof. repeat split. Qed.

(** C3 as stated fails: [hello] is sub-routable, routing consumes "hello"
    only, and the parser is handed "world" and "-a", not just the tokens
    from the first flag on. *)
Lemma residual_keeps_unconsumed_tokens :
  exists ctx,
    option_map (@p_ctx _ _ _)
      (Demo.prepare 0 Demo.hello_rest 0 ["hello"; "world"; "-a"] false false [])
      = Some (Some ctx) /\
    split_router ["hello"; "world"; "-a"] = ["hello"; "world"] /\
    skipn (List.length (split_router ["hello"; "world"; "-a"]))
          ["hello"; "world"; "-a"] = ["-a"] /\
    Context_Args ctx = ["world"; "-a"] /\
    ctx_flagSet ctx = Some (Demo.parseArgv ["world"; "-a"] [] false) /\
    Context_Argv ctx = Some ["world"; "-a"].
Proof. eexists. split; [reflexivity|]. repeat split. Qed.

(** C4.  [Path] and [Router] of one context name different commands: on
    the same dispatch routing consumes "hello" only and the command run is
    [hello], whose own path is "hello"; [Router] is cut to the consumed
    token, ["hello"], and [Args] holds the rest, while [Path] is
    "hello world", the join of the whole router prefix taken before
    routing. *)
Lemma path_keeps_unconsumed_tokens :
  exists ctx,
    option_map (@p_ctx _ _ _)
      (Demo.prepare 0 Demo.hello_rest 0 ["hello"; "world"; "-a"] false false [])
      = Some (Some ctx) /\
    Context_Router ctx = ["hello"] /\
    Join (Context_Router ctx) " " = "hello" /\
    Context_Path ctx = "hello world" /\
    Context_Args ctx = ["world"; "-a"] /\
    Context_Command ctx = Some 1 /\
    Path 2 Demo.hello_rest 1 = Some "hello".
Proof. eexists. split; [reflexivity|]. repeat split. Qed.

(** [context_fields] at the dispatch of the spec's example. *)
Lemma context_fields_witness :
  exists p ctx,
    Demo.prepare 0 Demo.hello_world 0 ["hello"; "world"; "-a"; "--xyz=1"]
                 false false [] = Some p /\
    p_ctx p = Some ctx /\
    exists node k,
      reaches Demo.hello_world 0 ["hello"; "world"; "-a"; "--xyz=1"] node k /\
      Context_Router ctx = firstn k ["hello"; "world"] /\
      Context_Args ctx = skipn k ["hello"; "world"; "-a"; "--xyz=1"].
Proof.
  eexists. eexists. split; [reflexivity|]. split; [reflexivity|].
  destruct (proj1 (@context_fields
              Demo.argv_obj Demo.cerr Demo.world Demo.Writer Demo.match_
              insertionSort Demo.Bold Demo.Yellow Demo.parseArgv Demo.Validate
              0 Demo.hello_world 0 ["hello"; "world"; "-a"; "--xyz=1"]
              false false []) _ _ eq_refl eq_refl)
    as (node & k & Hr & Hro & Ha & _).
  exists node, k. split; [exact Hr|]. split; [exact Hro|exact Ha].
Defined.

(** [method_gate] at the dispatch of ["get"] with the method POST on a
    command that allows GET only. *)
Lemma method_gate_witness :
  matched Demo.gated 0 ["get"] 1 1 /\
  method_rejected Demo.gated 1 ["POST"] /\
  Demo.prepare 0 Demo.gated 0 ["get"] false false ["POST"]
    = Some (mkPrepared (Some (MethodNotAllowed "POST")) None "").
Proof.
  assert (Hm : matched Demo.gated 0 ["get"] 1 1).
  { repeat split.
    - intros [H _]. discriminate.
    - intros [H _]. now apply H. }
  assert (Hrej : method_rejected Demo.gated 1 ["POST"]).
  { exists "POST", []. repeat split; [discriminate|].
    intros [H|[]]. discriminate. }
  split; [exact Hm|]. split; [exact Hrej|].
  destruct (proj1 (@method_gate
              Demo.argv_obj Demo.cerr Demo.world Demo.Writer Demo.match_
              insertionSort Demo.Bold Demo.Yellow Demo.parseArgv Demo.Validate
              0 Demo.gated 0 ["get"] false false ["POST"]) 1 1 Hm)
    as (p & Hp & Hr & _).
  destruct (Hr Hrej) as (method & rest & E & ->).
  injection E as <- <-. exact Hp.
Defined.


(** A parser that reports an error: the error comes back, the handler of
    [world] has not run (nothing is logged). *)
Example RunWithWriter_parse_error :
  @RunWithWriter Demo.argv_obj Demo.cerr Demo.world Demo.Writer Demo.match_
     insertionSort Demo.Bold Demo.Yellow
     (fun args obj clr => mkFlagSet (Some "unknown flag") false [] obj)
     Demo.Validate Demo.wrapErr Demo.NewColorableStdout Demo.isTerminalFile
     0 Demo.hello_world 0 ["hello"; "world"; "-x"] None [] []
  = Some (Done (Some (Collab "unknown flag")), []).
Proof. reflexivity. Qed.

(** A validator that fails: its error comes back and the handler has not
    run; when the parser switches validation off, the handler runs. *)
Example RunWithWriter_validation_error :
  @RunWithWriter Demo.argv_obj Demo.cerr Demo.world Demo.Writer Demo.match_
     insertionSort Demo.Bold Demo.Yellow Demo.parseArgv
     (fun obj => Some (Some "invalid"))
     Demo.wrapErr Demo.NewColorableStdout Demo.isTerminalFile
     0 Demo.hello_world 0 ["hello"; "world"; "-a"] None [] []
  = Some (Done (Some (Collab "invalid")), []) /\
  @RunWithWriter Demo.argv_obj Demo.cerr Demo.world Demo.Writer Demo.match_
     insertionSort Demo.Bold Demo.Yellow
     (fun args obj clr => mkFlagSet None true [] args)
     (fun obj => Some (Some "invalid"))
     Demo.wrapErr Demo.NewColorableStdout Demo.isTerminalFile
     0 Demo.hello_world 0 ["hello"; "world"; "-a"] None [] []
  = Some (Done None, ["hello world"]).
Proof. split; reflexivity. Qed.

(** A matched command without handler: the call of its nil [Fn] panics. *)
Example RunWithWriter_nil_handler :
  Demo.RunWithWriter 0 Demo.ab 0 ["a"] None [] []
  = Some (Panicked "nil pointer dereference", []).
Proof. reflexivity. Qed.

(** [SubRoute_total] at a dispatch that stops short. *)
Lemma SubRoute_total_witness :
  nothing_to_do Demo.ab 0 ["a"; "x"] \/
  exists node k,
    SubRoute Demo.ab 0 (split_router ["a"; "x"]) = (Some node, k) /\
    k < List.length (split_router ["a"; "x"]) /\
    CanSubRoute (Demo.ab node) = false.
Proof.
  exact (proj2 (proj2 (proj2 (@SubRoute_total
           Demo.argv_obj Demo.cerr Demo.world Demo.Writer Demo.match_
           insertionSort Demo.Bold Demo.Yellow Demo.parseArgv Demo.Validate
           Demo.ab 0 [])))
           5 ["a"; "x"] false false [] _ "a x" eq_refl eq_refl).
Defined.

(** * Further properties *)

(** ** Routing, continued *)

Section RoutingMore.

Variables argv_obj cerr world Writer : Type.
Local Abbreviation store := (store argv_obj cerr world Writer).
Implicit Types (st : store) (cmd cur node : ptr) (router toks : list string).

Lemma SubRoute_iff_descends st cmd router node k :
  SubRoute st cmd router = (Some node, k) <-> descends st cmd router node k.
Proof.
  destruct (SubRoute_descends st cmd router) as (node0 & k0 & HS & _ & Hd).
  split.
  - rewrite HS. now intros [= <- <-].
  - intros H. destruct (descends_unique Hd H) as [-> ->]. exact HS.
Qed.

Lemma Route_iff_descends st cmd router node :
  Route st cmd router = Some node <->
  descends st cmd router node (List.length router).
Proof.
  destruct (SubRoute_descends st cmd router) as (node0 & k0 & HS & _ & Hd).
  rewrite (Route_of_SubRoute _ _ _ HS). split.
  - destruct (Nat.eqb_spec k0 (List.length router)) as [<-|]; [|discriminate].
    now intros [= <-].
  - intros H. destruct (descends_unique Hd H) as [-> ->].
    now rewrite Nat.eqb_refl.
Qed.

(** Cutting the tokens after [j] of them cuts the walk after [j] steps. *)
Lemma descends_firstn st cur toks node k :
  descends st cur toks node k ->
  forall j,
    exists node',
      descends st cur (firstn j toks) node' (Nat.min j k) /\
      (k <= j -> node' = node).
Proof.
  induction 1 as [cur|cur tok toks Hno|cur tok toks c node k Hc Hd IH]; intros j.
  - exists cur. rewrite firstn_nil, Nat.min_0_r. split; [constructor|auto].
  - exists cur. rewrite Nat.min_0_r. split; [|auto].
    destruct j; simpl; now constructor.
  - destruct j as [|j]; simpl.
    + exists cur. split; [constructor|lia].
    + destruct (IH j) as (node' & Hd' & Hn).
      exists node'. split; [now apply descends_step with c|]. intros; apply Hn; lia.
Qed.

Lemma descends_app st cur r1 mid :
  descends st cur r1 mid (List.length r1) ->
  forall r2 node k,
    descends st mid r2 node k ->
    descends st cur (r1 ++ r2) node (List.length r1 + k).
Proof.
  revert cur. induction r1 as [|tok r1 IH]; intros cur H r2 node k H2.
  - inversion H; subst. exact H2.
  - inversion H; subst. simpl. apply descends_step with c; [assumption|].
    now apply IH.
Qed.

Lemma descends_short_app st cur r1 node k :
  descends st cur r1 node k ->
  k < List.length r1 ->
  forall r2, descends st cur (r1 ++ r2) node k.
Proof.
  induction 1 as [cur|cur tok toks Hno|cur tok toks c node k Hc Hd IH];
    intros Hk r2; simpl in *.
  - lia.
  - now constructor.
  - apply descends_step with c; [assumption|]. apply IH. lia.
Qed.

(** X1.  [SubRoute] is greedy: the count it returns is the length of the
    longest prefix of the tokens that [Route] resolves, and the node it
    returns is the one [Route] gives for that prefix. *)
Theorem SubRoute_longest_prefix st cmd router node k :
  SubRoute st cmd router = (Some node, k) ->
  Route st cmd (firstn k router) = Some node /\
  forall j,
    j <= List.length router ->
    (Route st cmd (firstn j router) <> None <-> j <= k).
Proof.
  intros HS.
  pose proof (proj1 (SubRoute_iff_descends _ _ _ _ _) HS) as Hd.
  assert (Hk : k <= List.length router).
  { destruct (SubRoute_descends st cmd router) as (n0 & k0 & HS0 & Hk0 & _).
    rewrite HS in HS0. injection HS0 as _ <-. exact Hk0. }
  split.
  - destruct (descends_firstn Hd k) as (node' & Hd' & Hn).
    rewrite Nat.min_id in Hd'. rewrite (Hn (Nat.le_refl _)) in Hd'.
    apply Route_iff_descends. now rewrite length_firstn, Nat.min_l.
  - intros j Hj. destruct (descends_firstn Hd j) as (node' & Hd' & _).
    apply SubRoute_iff_descends in Hd'.
    rewrite (Route_of_SubRoute _ _ _ Hd'), length_firstn.
    rewrite (Nat.min_l j (List.length router)) by assumption.
    destruct (Nat.eqb_spec (Nat.min j k) j) as [E|E].
    + split; [lia|discriminate].
    + split; [congruence|lia].
Qed.

(** X2.  Routing composes: when [Route] resolves a first list of tokens to
    a command, routing the list followed by more tokens is routing those
    from that command, with the count shifted; when it does not, nothing
    appended makes it resolve. *)
Theorem Route_app st cmd r1 r2 :
  (forall mid,
      Route st cmd r1 = Some mid ->
      SubRoute st cmd (r1 ++ r2) =
        (fst (SubRoute st mid r2), List.length r1 + snd (SubRoute st mid r2)) /\
      Route st cmd (r1 ++ r2) = Route st mid r2) /\
  (Route st cmd r1 = None -> Route st cmd (r1 ++ r2) = None).
Proof.
  split.
  - intros mid H. apply Route_iff_descends in H.
    destruct (SubRoute_descends st mid r2) as (node & k & HS & _ & Hd).
    pose proof (descends_app H Hd) as Happ.
    apply SubRoute_iff_descends in Happ.
    split; [now rewrite HS|].
    rewrite (Route_of_SubRoute _ _ _ Happ), (Route_of_SubRoute _ _ _ HS).
    rewrite length_app.
    destruct (Nat.eqb_spec k (List.length r2)) as [->|Hne].
    + now rewrite Nat.eqb_refl.
    + destruct (Nat.eqb_spec (List.length r1 + k) (List.length r1 + List.length r2));
        [lia|reflexivity].
  - intros H.
    destruct (SubRoute_descends st cmd r1) as (node & k & HS & Hk & Hd).
    rewrite (Route_of_SubRoute _ _ _ HS) in H.
    destruct (Nat.eqb_spec k (List.length r1)) as [|Hne]; [discriminate|].
    assert (Hlt : k < List.length r1) by lia.
    pose proof (descends_short_app Hd Hlt r2) as Happ.
    apply SubRoute_iff_descends in Happ.
    rewrite (Route_of_SubRoute _ _ _ Happ), length_app.
    destruct (Nat.eqb_spec k (List.length r1 + List.length r2)); [lia|reflexivity].
Qed.

End RoutingMore.

(** ** Registration, continued *)

Section RegisterMore.

Variables argv_obj cerr world Writer : Type.
Local Abbreviation store := (store argv_obj cerr world Writer).
Implicit Types (st : store) (cmd : ptr).

(** What a successful [Register] did. *)
Lemma Register_done st cmd child st' r :
  Register st cmd child = Done (st', r) ->
  child = Some r /\
  Name (st r) <> "" /\
  parent (st r) = None /\
  findChild st cmd (Name (st r)) = None /\
  (forall q, Name (st' q) = Name (st q)) /\
  (forall q, usage (st' q) = usage (st q)) /\
  children (st' cmd) = children (st cmd) ++ [r] /\
  (forall q, q <> cmd -> children (st' q) = children (st q)) /\
  parent (st' r) = Some cmd /\
  (forall q, q <> r -> parent (st' q) = parent (st q)).
Proof.
  unfold Register. destruct child as [c|]; [|discriminate].
  destruct (String.eqb_spec (Name (st c)) "") as [E|E]; [discriminate|].
  destruct (parent (st c)) as [up|] eqn:Ep; [discriminate|].
  destruct (findChild st cmd (Name (st c))) as [x|] eqn:Ef; [discriminate|].
  intros [= <- <-].
  repeat match goal with |- _ /\ _ => split end; auto.
  - intros q. unfold upd. destruct (Nat.eqb_spec q c) as [->|Hqc]; simpl.
    + destruct (Nat.eqb_spec c cmd) as [->|]; reflexivity.
    + destruct (Nat.eqb_spec q cmd) as [->|]; reflexivity.
  - intros q. unfold upd. destruct (Nat.eqb_spec q c) as [->|Hqc]; simpl.
    + destruct (Nat.eqb_spec c cmd) as [->|]; reflexivity.
    + destruct (Nat.eqb_spec q cmd) as [->|]; reflexivity.
  - unfold upd at 1. destruct (Nat.eqb_spec cmd c) as [->|Hne];
      rewrite upd_same; reflexivity.
  - intros q Hq. unfold upd at 1. destruct (Nat.eqb_spec q c) as [->|Hqc];
      [simpl|]; now rewrite upd_other.
  - now rewrite upd_same.
  - intros q Hq. rewrite upd_other by assumption.
    unfold upd. destruct (Nat.eqb_spec q cmd); subst; reflexivity.
Qed.

Lemma findChild_in_ext st st' cs name :
  (forall q, Name (st' q) = Name (st q)) ->
  findChild_in st' cs name = findChild_in st cs name.
Proof.
  intros H. induction cs as [|c cs IH]; simpl; [reflexivity|].
  now rewrite H, IH.
Qed.

Lemma findChild_in_app st cs ds name :
  findChild_in st (cs ++ ds) name =
    match findChild_in st cs name with
    | Some x => Some x
    | None => findChild_in st ds name
    end.
Proof.
  induction cs as [|c cs IH]; simpl; [reflexivity|].
  now destruct (String.eqb (Name (st c)) name).
Qed.

(** X3.  A registered child can be looked up by its name: after
    [Register] succeeds, [findChild] and [Route] on the parent find the
    child under its name, and every other lookup, on the parent or on any
    other command, answers as before. *)
Theorem Register_then_findChild st cmd child st' r :
  Register st cmd child = Done (st', r) ->
  findChild st' cmd (Name (st r)) = Some r /\
  Route st' cmd [Name (st r)] = Some r /\
  (forall name, name <> Name (st r) ->
                findChild st' cmd name = findChild st cmd name) /\
  (forall q name, q <> cmd -> findChild st' q name = findChild st q name).
Proof.
  intros H. apply Register_done in H.
  destruct H as (_ & _ & _ & Hnone & Hname & _ & Hch & Hother & _ & _).
  assert (Hfind : findChild st' cmd (Name (st r)) = Some r).
  { unfold findChild in *. rewrite Hch, (@findChild_in_ext st st' _ _ Hname),
      findChild_in_app, Hnone. simpl. now rewrite String.eqb_refl. }
  split; [exact Hfind|]. split; [|split].
  - unfold Route, SubRoute. simpl. now rewrite Hfind.
  - intros name Hn. unfold findChild.
    rewrite Hch, (@findChild_in_ext st st' _ _ Hname), findChild_in_app.
    destruct (findChild_in st (children (st cmd)) name); [reflexivity|].
    simpl. destruct (String.eqb_spec (Name (st r)) name); congruence.
  - intros q name Hq. unfold findChild.
    now rewrite (Hother q Hq), (@findChild_in_ext st st' _ _ Hname).
Qed.

(** X4.  [Register] keeps sibling names distinct: if no command has two
    children of the same name before, none has after. *)
Theorem Register_keeps_names_unique st cmd child st' r :
  Register st cmd child = Done (st', r) ->
  names_unique st ->
  names_unique st'.
Proof.
  intros H Hu. apply Register_done in H.
  destruct H as (_ & _ & _ & Hnone & Hname & _ & Hch & Hother & _ & _).
  intros q.
  assert (Hmap : forall cs, map (fun c => Name (st' c)) cs
                            = map (fun c => Name (st c)) cs).
  { intros cs. apply map_ext. intros c. apply Hname. }
  rewrite Hmap. destruct (Nat.eq_dec q cmd) as [->|Hq].
  - rewrite Hch, map_app. simpl.
    apply NoDup_app_remove_l with (l := []). simpl.
    apply Permutation_NoDup with (l := Name (st r) :: map (fun c => Name (st c))
                                                     (children (st cmd))).
    + apply Permutation_cons_append.
    + constructor; [|apply Hu].
      unfold findChild in Hnone. rewrite findChild_in_none in Hnone.
      intros Hin. apply in_map_iff in Hin. destruct Hin as (x & Hx & Hin).
      exact (Hnone x Hin Hx).
  - rewrite (Hother q Hq). apply Hu.
Qed.

(** X5.  [Register] keeps child lists and parent pointers in agreement:
    if every command is a child of exactly the command its parent pointer
    names before, the same holds after. *)
Theorem Register_keeps_linked st cmd child st' r :
  Register st cmd child = Done (st', r) ->
  linked st ->
  linked st'.
Proof.
  intros H Hl. apply Register_done in H.
  destruct H as (_ & _ & Hp & _ & _ & _ & Hch & Hother & Hpr & Hpo).
  assert (Hfree : forall q, ~ In r (children (st q))).
  { intros q Hin. apply Hl in Hin. congruence. }
  intros q c. destruct (Nat.eq_dec c r) as [->|Hc].
  - rewrite Hpr. destruct (Nat.eq_dec q cmd) as [->|Hq].
    + rewrite Hch. split; [reflexivity|]. intros _. apply in_or_app. right. now left.
    + rewrite (Hother q Hq). split; [intros Hin; now apply Hfree in Hin|congruence].
  - rewrite (Hpo c Hc), <- (Hl q c). destruct (Nat.eq_dec q cmd) as [->|Hq].
    + rewrite Hch, in_app_iff. simpl. intuition congruence.
    + now rewrite (Hother q Hq).
Qed.

Lemma Root_cycle st p :
  parent (st p) = Some p -> forall fuel, Root fuel st p = None.
Proof. intros Hp. induction fuel as [|fuel IH]; simpl; [reflexivity|]. now rewrite Hp. Qed.

Lemma Path_loop_cycle st p :
  parent (st p) = Some p -> forall fuel acc, Path_loop fuel st p acc = None.
Proof.
  intros Hp. induction fuel as [|fuel IH]; intros acc; simpl; [reflexivity|].
  rewrite Hp. apply IH.
Qed.

(** X6.  [Register] does not refuse to register a command below itself:
    for a named command without parent and without a child of its own
    name it succeeds, and afterwards the command is its own parent, so the
    loops of [Root] and [Path] on it never end. *)
Theorem Register_self_cycle st cmd :
  Name (st cmd) <> "" ->
  parent (st cmd) = None ->
  findChild st cmd (Name (st cmd)) = None ->
  exists st',
    Register st cmd (Some cmd) = Done (st', cmd) /\
    parent (st' cmd) = Some cmd /\
    In cmd (children (st' cmd)) /\
    (forall fuel, Root fuel st' cmd = None) /\
    (forall fuel, Path fuel st' cmd = None).
Proof.
  intros Hn Hp Hf.
  destruct (Register st cmd (Some cmd)) as [[st' r]|msg] eqn:E.
  - pose proof (Register_done _ _ _ E) as (Hc & _ & _ & _ & _ & _ & Hch & _ & Hpr & _).
    injection Hc as <-. exists st'. split; [reflexivity|]. split; [exact Hpr|].
    split; [rewrite Hch; apply in_or_app; right; now left|].
    split; [now apply Root_cycle|]. intros fuel. now apply Path_loop_cycle.
  - exfalso. unfold Register in E.
    destruct (String.eqb_spec (Name (st cmd)) ""); [contradiction|].
    rewrite Hp, Hf in E. discriminate.
Qed.

End RegisterMore.

(** ** Paths and roots, continued *)

Section PathMore.

Lemma string_append_assoc (a b c : string) : (a +++ b) +++ c = a +++ b +++ c.
Proof. induction a as [|x a IH]; simpl; [reflexivity|]. now rewrite IH. Qed.

Lemma glue_empty_l a : glue "" a = a.
Proof. reflexivity. Qed.

Lemma glue_empty_r a : glue a "" = a.
Proof. unfold glue. now destruct (String.eqb_spec a ""). Qed.

Lemma glue_assoc a b c : glue a (glue b c) = glue (glue a b) c.
Proof.
  destruct (String.eqb_spec a "") as [->|Ha]; [reflexivity|].
  destruct (String.eqb_spec b "") as [->|Hb]; [now rewrite glue_empty_r|].
  destruct (String.eqb_spec c "") as [->|Hc]; [now rewrite !glue_empty_r|].
  unfold glue.
  destruct (String.eqb_spec a ""); [contradiction|].
  destruct (String.eqb_spec b ""); [contradiction|].
  destruct (String.eqb_spec c ""); [contradiction|].
  destruct (String.eqb_spec (b +++ " " +++ c) "") as [E|_];
    [now apply append_nonempty in E|].
  destruct (String.eqb_spec (a +++ " " +++ b) "") as [E|_];
    [now apply append_nonempty in E|].
  rewrite !string_append_assoc. reflexivity.
Qed.

Variables argv_obj cerr world Writer : Type.
Local Abbreviation store := (store argv_obj cerr world Writer).
Implicit Types (st : store) (cmd cur node : ptr).

(** The accumulator of the loop of [Path] is glued behind what the loop
    finds above. *)
Lemma Path_loop_acc st fuel :
  forall p acc,
    Path_loop fuel st p acc =
      option_map (fun s => glue s acc) (Path_loop fuel st p "").
Proof.
  induction fuel as [|fuel IH]; intros p acc; [reflexivity|].
  cbn [Path_loop]. cbv zeta.
  destruct (parent (st p)) as [up|]; [|reflexivity].
  assert (Hstep : forall path,
             (if negb (String.eqb (Name (st p)) "") then
                if String.eqb path "" then Name (st p)
                else Name (st p) +++ " " +++ path
              else path) = glue (Name (st p)) path).
  { intros path. unfold glue. now destruct (String.eqb (Name (st p)) ""). }
  rewrite !Hstep, glue_empty_r.
  rewrite (IH up (glue (Name (st p)) acc)), (IH up (Name (st p))).
  destruct (Path_loop fuel st up ""); simpl; [|reflexivity].
  now rewrite glue_assoc.
Qed.

(** X7.  The path of a command is the path of its parent, one space, and
    its own name, where an empty path or an empty name adds nothing and no
    space; the path of a command without parent is empty. *)
Theorem Path_of_child st fuel c :
  (parent (st c) = None -> Path (S fuel) st c = Some "") /\
  (forall up,
      parent (st c) = Some up ->
      Path (S fuel) st c =
        option_map (fun above_path => glue above_path (Name (st c)))
                   (Path fuel st up)).
Proof.
  unfold Path. cbn [Path_loop]. cbv zeta. split.
  - now intros ->.
  - intros up ->.
    match goal with
    | |- Path_loop _ _ _ ?acc = _ => replace acc with (Name (st c))
    end.
    + apply Path_loop_acc.
    + destruct (String.eqb_spec (Name (st c)) "") as [->|]; reflexivity.
Qed.

Lemma descends_above st :
  children_know_parent st ->
  forall cur toks node k,
    descends st cur toks node k ->
    forall chain,
      above st cur chain ->
      above st node (chain ++ firstn k toks).
Proof.
  intros Hl cur toks node k H.
  induction H as [cur|cur tok toks Hno|cur tok toks c node k Hc Hd IH];
    intros chain Ha; simpl.
  - now rewrite app_nil_r.
  - now rewrite app_nil_r.
  - apply first_named_has_name in Hc. destruct Hc as [Hin Hn].
    apply Hl in Hin.
    replace (chain ++ tok :: firstn k toks) with ((chain ++ [tok]) ++ firstn k toks)
      by now rewrite <- app_assoc.
    apply IH. rewrite <- Hn. now apply above_step with cur.
Qed.

Lemma qualified_all_named router :
  Forall (fun tok => tok <> "") router -> qualified router = Join router " ".
Proof.
  intros H. unfold qualified. f_equal.
  induction H as [|tok router Ht _ IH]; simpl; [reflexivity|].
  destruct (String.eqb_spec tok ""); [contradiction|]. simpl. now rewrite IH.
Qed.

(** X8.  [Path] undoes [Route]: in a store where children know their
    parent, the command that [Route] resolves from a command without
    parent has the resolved tokens, joined by single spaces, as its path. *)
Theorem Path_of_Route st root router node fuel :
  children_know_parent st ->
  parent (st root) = None ->
  Route st root router = Some node ->
  Forall (fun tok => tok <> "") router ->
  List.length router < fuel ->
  Path fuel st node = Some (Join router " ").
Proof.
  intros Hl Hp HR Hne Hf. apply Route_iff_descends in HR.
  pose proof (descends_above Hl HR (above_root st root Hp)) as Ha.
  simpl in Ha. rewrite firstn_all in Ha.
  rewrite (Path_above Ha Hf). now rewrite qualified_all_named.
Qed.

Lemma Root_root_of st fuel :
  forall cmd r, Root fuel st cmd = Some r -> root_of st cmd r.
Proof.
  induction fuel as [|fuel IH]; intros cmd r; simpl; [discriminate|].
  destruct (parent (st cmd)) as [up|] eqn:Ep.
  - intros H. apply root_up with up; auto.
  - intros [= <-]. now apply root_here.
Qed.

Lemma Root_more_fuel st fuel :
  forall cmd r, Root fuel st cmd = Some r -> Root (S fuel) st cmd = Some r.
Proof.
  induction fuel as [|fuel IH]; intros cmd r; [discriminate|].
  simpl. destruct (parent (st cmd)) as [up|]; [|auto].
  intros H. apply IH in H. exact H.
Qed.

(** X9.  [Root] returns a command exactly when following the parent
    pointers ends, and then it returns the command the chain ends at, which
    has no parent and is its own root. *)
Theorem Root_spec st cmd r :
  ((exists fuel, Root fuel st cmd = Some r) <-> root_of st cmd r) /\
  (forall fuel,
      Root fuel st cmd = Some r ->
      parent (st r) = None /\ Root fuel st r = Some r).
Proof.
  split.
  - split.
    + intros [fuel H]. now apply Root_root_of with fuel.
    + intros H. destruct (Root_reaches H) as [_ (d & Hd)]. exists d. now apply Hd.
  - intros fuel H. pose proof (Root_root_of _ _ _ H) as Hr.
    destruct (Root_reaches Hr) as [Hp _]. split; [exact Hp|].
    destruct fuel; [discriminate|]. simpl. now rewrite Hp.
Qed.

End PathMore.

(** ** Suggestions, listings and usage, continued *)

Section SuggestionsMore.

Variables argv_obj cerr world Writer : Type.
Variable match_ : string -> string -> nat * bool.
Variable sort_Sort : list editDistanceRank -> list editDistanceRank.
Local Abbreviation store := (store argv_obj cerr world Writer).
Local Abbreviation Suggestions :=
  (@Suggestions argv_obj cerr world Writer match_ sort_Sort).
Implicit Types (st : store) (cmd r : ptr).

(** X10.  [Suggestions] gives the same answer on every command of a
    tree: called on a command below the root it returns, once the fuel
    suffices, what it returns on the root. *)
Theorem Suggestions_anywhere st cmd r t path :
  root_of st cmd r ->
  repr st r None t ->
  exists fuel0, forall fuel,
      fuel0 <= fuel ->
      Suggestions fuel st cmd path = Suggestions fuel st r path /\
      Suggestions fuel st cmd path <> None.
Proof.
  intros Hroot Hr.
  assert (Hrr : root_of st r r).
  { apply root_here. now destruct (Root_reaches Hroot). }
  destruct (Suggestions_total match_ sort_Sort path Hroot Hr) as (f1 & H1).
  destruct (Suggestions_total match_ sort_Sort path Hrr Hr) as (f2 & H2).
  exists (Nat.max f1 f2). intros fuel Hf.
  rewrite H1, H2 by lia. split; [reflexivity|discriminate].
Qed.

End SuggestionsMore.

Section ListingFacts.

Variables argv_obj cerr world Writer : Type.
Variable RuneCount : string -> nat.
Local Abbreviation store := (store argv_obj cerr world Writer).
Local Abbreviation ListChildren :=
  (@ListChildren argv_obj cerr world Writer RuneCount).
Implicit Types (st : store) (cmd : ptr).

Lemma string_length_append (a b : string) :
  String.length (a +++ b) = String.length a + String.length b.
Proof. induction a as [|x a IH]; simpl; [reflexivity|]. now rewrite IH. Qed.

Lemma spaces_length n : String.length (spaces n) = n.
Proof. induction n as [|n IH]; simpl; [reflexivity|]. now rewrite IH. Qed.

Lemma longest_name_ge st cs :
  forall n,
    n <= longest_name st cs n /\
    forall c, In c cs -> String.length (Name (st c)) <= longest_name st cs n.
Proof.
  induction cs as [|c cs IH]; intros n; simpl.
  - split; [lia|intros ? []].
  - destruct (Nat.ltb_spec n (String.length (Name (st c)))) as [Hlt|Hge].
    + destruct (IH (String.length (Name (st c)))) as [H1 H2].
      split; [lia|]. intros x [<-|Hx]; [exact H1|now apply H2].
    + destruct (IH n) as [H1 H2].
      split; [exact H1|]. intros x [<-|Hx]; [lia|now apply H2].
Qed.

Lemma list_lines_nonempty st prefix indent n c cs :
  list_lines RuneCount st prefix indent n (c :: cs) <> "".
Proof.
  simpl. intros H. apply append_empty in H. destruct H as [H _].
  apply append_empty in H. destruct H as [_ H].
  apply append_empty in H. destruct H as [_ H].
  apply append_empty in H. destruct H as [_ H].
  apply append_empty in H. destruct H as [_ H]. discriminate.
Qed.


End ListingFacts.

Section UsageMore.

Variables argv_obj cerr world Writer : Type.
Variable Bold : Color -> string -> string.
Variable usage_argv : option argv_obj -> Color -> string.
Variable RuneCount : string -> nat.

Local Abbreviation store := (store argv_obj cerr world Writer).
Local Abbreviation Context := (Context argv_obj cerr Writer).
Local Abbreviation Usage :=
  (@Usage argv_obj cerr world Writer Bold usage_argv RuneCount).
Local Abbreviation build_usage :=
  (@build_usage argv_obj cerr world Writer Bold usage_argv RuneCount).
Implicit Types (st : store) (cmd : ptr) (ctxs : list Context).

(** What [Usage] returns is what the command holds afterwards, and only
    the [usage] field of the command can have changed. *)
Lemma Usage_stores st cmd ctxs text st1 calls :
  Usage st cmd ctxs = (text, st1, calls) ->
  usage (st1 cmd) = text /\
  forall q,
    Name (st1 q) = Name (st q) /\ children (st1 q) = children (st q) /\
    parent (st1 q) = parent (st q).
Proof.
  unfold Usage.
  destruct (String.eqb_spec (usage (st cmd)) "") as [Ec|Ec]; simpl.
  - destruct (build_usage st cmd
                (match ctxs with c :: _ => ctx_color c | [] => Disable false end))
      as [t n].
    intros [= <- <- <-]. rewrite upd_same. split; [reflexivity|].
    intros q. unfold upd. destruct (Nat.eqb_spec q cmd) as [->|]; auto.
  - intros [= <- <- <-]. auto.
Qed.

Lemma SubRoute_ext st st1 :
  (forall q, Name (st1 q) = Name (st q) /\ children (st1 q) = children (st q)) ->
  forall q router, SubRoute st1 q router = SubRoute st q router.
Proof.
  intros H q router. unfold SubRoute. generalize (List.length router) 0.
  revert q. induction router as [|tok toks IH]; intros q len i; simpl.
  - reflexivity.
  - unfold findChild. rewrite (proj2 (H q)).
    rewrite (@findChild_in_ext _ _ _ _ st st1 _ _ (fun x => proj1 (H x))).
    destruct (findChild_in st (children (st q)) tok); [apply IH|reflexivity].
Qed.

(** X12.  The usage text is never invalidated: once [Usage] has returned
    a non-empty text for a command, it returns that very text after any
    later [Register], on that command or another, without calling the
    collaborator, so a child registered later is not listed. *)
Theorem Usage_stale_after_Register st cmd ctxs1 text st1 calls up child st2 r :
  Usage st cmd ctxs1 = (text, st1, calls) ->
  text <> "" ->
  Register st1 up child = Done (st2, r) ->
  forall ctxs2, Usage st2 cmd ctxs2 = (text, st2, 0).
Proof.
  intros HU Ht HR ctxs2.
  apply Usage_stores in HU. destruct HU as [Hu _].
  apply Register_done in HR.
  destruct HR as (_ & _ & _ & _ & _ & Husage & _).
  unfold Usage. rewrite Husage, Hu.
  destruct (String.eqb_spec text ""); [contradiction|]. reflexivity.
Qed.

(** X13.  [Usage] changes nothing that routing looks at: names, child
    lists and parent pointers are as before the call, and so is the result
    of [SubRoute] from every command on every list of tokens. *)
Theorem Usage_keeps_routing st cmd ctxs :
  let '(_, st1, _) := Usage st cmd ctxs in
  (forall q,
      Name (st1 q) = Name (st q) /\ children (st1 q) = children (st q) /\
      parent (st1 q) = parent (st q)) /\
  (forall q router, SubRoute st1 q router = SubRoute st q router).
Proof.
  destruct (Usage st cmd ctxs) as [[text st1] calls] eqn:HU.
  apply Usage_stores in HU. destruct HU as [_ Hf].
  split; [exact Hf|]. apply SubRoute_ext. intros q. destruct (Hf q) as (? & ? & _).
  auto.
Qed.

(** X14.  With an empty cache, [Usage] returns the empty text exactly for
    a command that has no description, no text, no argument factory and no
    children. *)
Theorem Usage_empty_iff_bare st cmd ctxs :
  usage (st cmd) = "" ->
  (fst (fst (Usage st cmd ctxs)) = "" <->
   Desc (st cmd) = "" /\ Text (st cmd) = "" /\ Argv (st cmd) = None /\
   children (st cmd) = []).
Proof.
  intros Hc. unfold Usage. rewrite Hc. simpl.
  set (clr := match ctxs with c :: _ => ctx_color c | [] => Disable false end).
  split.
  - intros H. apply (@build_usage_empty _ _ _ _ Bold usage_argv RuneCount st cmd clr).
    now destruct (build_usage st cmd clr).
  - intros (Hd & Ht & Ha & Hch).
    now rewrite (@build_usage_bare _ _ _ _ Bold usage_argv RuneCount st cmd clr).
Qed.

End UsageMore.

(** ** [RegisterFunc] and [RegisterTree] *)

Section RegisterTreeFacts.

Variables argv_obj cerr world Writer : Type.
Local Abbreviation store := (store argv_obj cerr world Writer).
Local Abbreviation CommandFunc := (CommandFunc argv_obj cerr world Writer).
Implicit Types (st : store) (cmd : ptr) (forest : list (option CommandTree)).

(** X15.  [RegisterFunc] allocates a command with the given name, handler
    and argument factory and registers it: for an address that is new (not
    the parent and not among its children) it panics exactly when the name
    is empty or the parent has a child of that name, and otherwise the new
    command is the last child of the parent, has the parent as parent, and
    is what [Route] finds under the name. *)
Theorem RegisterFunc_spec st fresh cmd name fn argvFn :
  fresh <> cmd ->
  ~ In fresh (children (st cmd)) ->
  match RegisterFunc st fresh cmd name fn argvFn with
  | Panicked _ =>
      name = "" \/ exists x, In x (children (st cmd)) /\ Name (st x) = name
  | Done (st', r) =>
      r = fresh /\ name <> "" /\
      (forall x, In x (children (st cmd)) -> Name (st x) <> name) /\
      Name (st' r) = name /\ Fn (st' r) = fn /\ Argv (st' r) = argvFn /\
      parent (st' r) = Some cmd /\
      children (st' cmd) = children (st cmd) ++ [r] /\
      Route st' cmd [name] = Some r
  end.
Proof.
  intros Hne Hnin. unfold RegisterFunc.
  set (st0 := upd st fresh (mkCommand name "" "" fn argvFn false [] [] None [] "")).
  assert (Hc0 : children (st0 cmd) = children (st cmd)).
  { unfold st0. rewrite upd_other; auto. }
  assert (Hn0 : forall x, In x (children (st cmd)) -> Name (st0 x) = Name (st x)).
  { intros x Hx. unfold st0. rewrite upd_other; [reflexivity|]. congruence. }
  assert (Hf0 : st0 fresh = mkCommand name "" "" fn argvFn false [] [] None [] "").
  { unfold st0. apply upd_same. }
  destruct (Register st0 cmd (Some fresh)) as [[st' r]|msg] eqn:E.
  - pose proof (Register_done _ _ _ E)
      as (Hc & Hname & Hp & Hnone & Hnames & _ & Hch & _ & Hpr & _).
    injection Hc as <-. rewrite Hf0 in Hname, Hnone. simpl in Hname, Hnone.
    unfold findChild in Hnone. rewrite Hc0, findChild_in_none in Hnone.
    split; [reflexivity|]. split; [exact Hname|]. split.
    { intros x Hx. rewrite <- (Hn0 x Hx). now apply Hnone. }
    assert (Hst' : st' fresh = set_parent (st0 fresh) (Some cmd)).
    { unfold Register in E. rewrite Hf0 in E. simpl in E.
      destruct (String.eqb_spec name ""); [contradiction|].
      destruct (findChild st0 cmd name); [discriminate|].
      injection E as <-. rewrite upd_same, upd_other by assumption.
      now rewrite Hf0. }
    rewrite Hst', Hf0. simpl. repeat split.
    + now rewrite Hch, Hc0.
    + unfold Route, SubRoute. simpl. unfold findChild.
      rewrite Hch, (@findChild_in_ext _ _ _ _ st0 st' _ _ Hnames), findChild_in_app.
      rewrite (proj2 (findChild_in_none st0 (children (st0 cmd)) name)).
      * simpl. rewrite Hf0. simpl. now rewrite String.eqb_refl.
      * rewrite Hc0. exact Hnone.
  - unfold Register in E. rewrite Hf0 in E. simpl in E.
    destruct (String.eqb_spec name "") as [->|Hname]; [now left|].
    destruct (findChild st0 cmd name) as [x|] eqn:Ef; [|discriminate].
    right. unfold findChild in Ef. rewrite Hc0 in Ef.
    apply findChild_in_some, first_named_has_name in Ef.
    destruct Ef as [Hin Hx]. exists x. split; [exact Hin|].
    now rewrite <- (Hn0 x Hin).
Qed.

Lemma CommandTree_forest_ind (P : CommandTree -> Prop) :
  (forall command forest,
      Forall (fun o => match o with Some t => P t | None => True end) forest ->
      P (mkCommandTree command forest)) ->
  forall tree, P tree.
Proof.
  intros H. fix IH 1. intros [command forest]. apply H.
  induction forest as [|[t|] forest IHf]; constructor; auto.
Qed.

Lemma RegisterTree_loop_frame forest :
  Forall (fun o => match o with
                   | Some t =>
                       forall x st st',
                         RegisterTree_one x st t = Done st' ->
                         leaves_alone x (tree_commands t) st st'
                   | None => True
                   end) forest ->
  forall x st st',
    RegisterTree_loop (RegisterTree_one x) st forest = Done st' ->
    leaves_alone x (forest_commands forest) st st'.
Proof.
  induction 1 as [|o forest Ho _ IH]; intros x st st' E; simpl in E.
  - injection E as <-. split; auto.
  - destruct o as [t|]; [|discriminate].
    destruct (RegisterTree_one x st t) as [st1|] eqn:E1; [|discriminate].
    destruct (Ho _ _ _ E1) as [Hc1 Hp1]. destruct (IH _ _ _ E) as [Hc2 Hp2].
    unfold forest_commands. simpl. split.
    + intros q Hq Hnin. rewrite in_app_iff in Hnin.
      rewrite Hc2, Hc1; auto.
    + intros q Hq. rewrite Hp2; rewrite Hp1; auto.
Qed.

Lemma RegisterTree_one_frame tree :
  forall x st st',
    RegisterTree_one x st tree = Done st' ->
    leaves_alone x (tree_commands tree) st st'.
Proof.
  induction tree as [command forest IH] using CommandTree_forest_ind.
  intros x st st' E. simpl in E.
  destruct (Register st x command) as [[st1 child]|] eqn:ER; [|discriminate].
  pose proof (Register_done _ _ _ ER)
    as (-> & _ & Hp & _ & _ & _ & _ & Hother & _ & Hpo).
  assert (Hreg : leaves_alone x [child] st st1).
  { split.
    - intros q Hq _. now apply Hother.
    - intros q Hq. apply Hpo. congruence. }
  destruct forest as [|o forest].
  - injection E as <-. exact Hreg.
  - pose proof (RegisterTree_loop_frame IH _ _ E) as [Hc2 Hp2].
    destruct Hreg as [Hc1 Hp1]. simpl tree_commands. split.
    + intros q Hq Hnin. simpl in Hnin.
      assert (Hqc : q <> child) by (intros ->; apply Hnin; now left).
      assert (Hqf : ~ In q (forest_commands (o :: forest))).
      { intros H. apply Hnin. right. exact H. }
      rewrite (Hc2 q Hqc Hqf). apply Hc1; [exact Hq|].
      intros [H|[]]. congruence.
    + intros q Hq. rewrite Hp2; rewrite Hp1; auto.
Qed.

Lemma RegisterTree_frame forest x st st' :
  RegisterTree_loop (RegisterTree_one x) st forest = Done st' ->
  leaves_alone x (forest_commands forest) st st'.
Proof.
  apply RegisterTree_loop_frame. apply Forall_forall. intros [t|] _; [|exact I].
  apply RegisterTree_one_frame.
Qed.

(** X16.  [RegisterTree] keeps the declared order: when it succeeds and
    the receiver is not itself a command of the forest, the children of
    the receiver are the former ones followed by the top commands of the
    forest in order, each of these has the receiver as parent, and the
    child lists of commands outside the forest are as before. *)
Theorem RegisterTree_order st cmd forest st' :
  RegisterTree st cmd forest = Done st' ->
  ~ In cmd (forest_commands forest) ->
  children (st' cmd) = children (st cmd) ++ forest_tops forest /\
  (forall c, In c (forest_tops forest) -> parent (st' c) = Some cmd) /\
  (forall q, q <> cmd -> ~ In q (forest_commands forest) ->
             children (st' q) = children (st q)).
Proof.
  unfold RegisterTree. intros E Hnin.
  split; [|split; [|apply (RegisterTree_frame _ _ _ E)]].
  - revert st E Hnin. induction forest as [|o forest IH]; intros st E Hnin.
    + injection E as <-. simpl. now rewrite app_nil_r.
    + simpl in E. destruct o as [[command sub]|]; [|discriminate].
      destruct (RegisterTree_one cmd st (mkCommandTree command sub))
        as [st1|] eqn:E1; [|discriminate].
      unfold forest_commands in Hnin. simpl in Hnin.
      rewrite !in_app_iff in Hnin.
      rewrite (IH st1 E) by (unfold forest_commands; tauto).
      simpl in E1.
      destruct (Register st cmd command) as [[sta child]|] eqn:ER; [|discriminate].
      pose proof (Register_done _ _ _ ER) as (-> & _ & _ & _ & _ & _ & Hch & _).
      assert (Hcmd : children (st1 cmd) = children (sta cmd)).
      { destruct sub as [|o' sub']; [now injection E1 as <-|].
        apply (RegisterTree_frame _ _ _ E1).
        - intros ->. apply Hnin. left. left. now left.
        - unfold forest_commands. intros H. apply Hnin. left. right. exact H. }
      rewrite Hcmd, Hch, <- app_assoc. reflexivity.
  - revert st E Hnin. induction forest as [|o forest IH]; intros st E Hnin c Hc.
    + destruct Hc.
    + simpl in E. destruct o as [[command sub]|]; [|discriminate].
      destruct (RegisterTree_one cmd st (mkCommandTree command sub))
        as [st1|] eqn:E1; [|discriminate].
      unfold forest_commands in Hnin. simpl in Hnin.
      rewrite !in_app_iff in Hnin.
      simpl in E1.
      destruct (Register st cmd command) as [[sta child]|] eqn:ER; [|discriminate].
      pose proof (Register_done _ _ _ ER) as (-> & _ & _ & _ & _ & _ & _ & _ & Hpr & _).
      simpl in Hc. destruct Hc as [<-|Hc].
      * assert (Hp1 : parent (st1 child) = Some cmd).
        { destruct sub as [|o' sub']; [now injection E1 as <-|].
          destruct (RegisterTree_frame _ _ _ E1) as [_ Hp].
          rewrite Hp; [exact Hpr|congruence]. }
        destruct (RegisterTree_frame _ _ _ E) as [_ Hp].
        rewrite Hp; [exact Hp1|congruence].
      * apply (IH st1 E); [unfold forest_commands; tauto|exact Hc].
Qed.

End RegisterTreeFacts.

(** ** Dispatch, continued *)

Section SplitMore.

Variables argv_obj cerr world Writer : Type.
Local Abbreviation store := (store argv_obj cerr world Writer).
Implicit Types (st : store) (cmd node : ptr).

Lemma split_router_flag pre flag rest :
  HasPrefix flag dashOne = true ->
  split_router (pre ++ flag :: rest) = split_router pre.
Proof.
  intros Hf. induction pre as [|tok pre IH]; simpl.
  - now rewrite Hf.
  - destruct (HasPrefix tok dashOne); [reflexivity|]. now rewrite IH.
Qed.

(** X17.  What follows the first flag takes no part in routing, even when
    it names a command: the router prefix, the command reached, the count
    and the verdict of the structural match are the same whatever comes
    from the flag on. *)
Theorem routing_ignores_flags st cmd pre flag rest :
  HasPrefix flag dashOne = true ->
  split_router (pre ++ flag :: rest) = split_router pre /\
  (nothing_to_do st cmd (pre ++ flag :: rest) <-> nothing_to_do st cmd pre) /\
  forall node k,
    (reaches st cmd (pre ++ flag :: rest) node k <-> reaches st cmd pre node k) /\
    (stops_short st (pre ++ flag :: rest) node k <-> stops_short st pre node k) /\
    (matched st cmd (pre ++ flag :: rest) node k <-> matched st cmd pre node k).
Proof.
  intros Hf. pose proof (@split_router_flag pre flag rest Hf) as E.
  unfold matched, reaches, stops_short, nothing_to_do. rewrite E.
  repeat split; tauto.
Qed.

End SplitMore.

Section DispatchMore.

Variables argv_obj cerr world Writer : Type.
Variable match_ : string -> string -> nat * bool.
Variable sort_Sort : list editDistanceRank -> list editDistanceRank.
Variables Bold Yellow : Color -> string -> string.
Variable parseArgv : list string -> argv_obj -> Color -> flagSet argv_obj cerr.
Variable Validate : argv_obj -> option (option cerr).

Local Abbreviation store := (store argv_obj cerr world Writer).
Local Abbreviation prepare :=
  (@prepare argv_obj cerr world Writer match_ sort_Sort Bold Yellow parseArgv Validate).
Local Abbreviation newContext := (@newContext argv_obj cerr Writer parseArgv).
Local Abbreviation validate := (@validate argv_obj cerr Writer Validate).
Implicit Types (st : store) (cmd node : ptr) (args httpMethods : list string).

(** X18.  The context a handler is run with is complete: when the closure
    returns no error, its context names the command reached by routing and
    carries the writer and the colour of the dispatch and the object the
    parser filled (none without argument factory), so [Writer()] returns
    the writer of the dispatch and never falls back on the standard
    output. *)
Theorem handler_context fuel st cmd args writer clr httpMethods p :
  prepare fuel st cmd args writer clr httpMethods = Some p ->
  p_err p = None ->
  exists ctx node k,
    p_ctx p = Some ctx /\
    reaches st cmd args node k /\
    ctx_command ctx = Some node /\
    ctx_writer ctx = Some writer /\
    ctx_color ctx = clr /\
    ctx_argv ctx =
      option_map (fun obj => fs_argv (parseArgv (skipn k args) obj clr))
                 (make_argv st node) /\
    forall stdout, Context_Writer stdout ctx = (writer, ctx).
Proof.
  intros Hp He.
  destruct (prepare_cases _ _ _ _ _ _ _ _ _ _ _ _ _ Hp) as (node & k & Hr & _ & Hc).
  destruct Hc as [Hn|suggestions Hn Hs Hsug|method rest Hm Hrej E|e Hm Hok En
                  |ctx0 e Hm Hok En Ev|ctx0 Hm Hok En Ev];
    simpl in He; try discriminate.
  exists (set_command_writer ctx0 node writer), node, k.
  apply newContext_inl in En. destruct En as (_ & _ & _ & Hclr & _ & Hfs).
  repeat split; auto.
  simpl. destruct (make_argv st node); simpl; tauto.
Qed.

(** X19.  A command without argument factory is dispatched without the
    parser and the validator: on a structural match that passes the method
    check the closure returns no error and a context without argument
    object, whatever the parser and the validator are. *)
Theorem no_argv_no_parsing fuel st cmd args writer clr httpMethods node k :
  matched st cmd args node k ->
  ~ method_rejected st node httpMethods ->
  make_argv st node = None ->
  prepare fuel st cmd args writer clr httpMethods =
    Some (mkPrepared None
            (Some (mkContext (firstn k (split_router args))
                             (Join (split_router args) " ") None
                             (skipn k args) None (Some node) (Some writer) clr))
            "").
Proof.
  intros Hm Hok Ha.
  rewrite (prepare_matched match_ sort_Sort Bold Yellow parseArgv Validate
                           fuel writer clr httpMethods Hm).
  apply not_rejected_allowed in Hok. rewrite Hok, Ha. reflexivity.
Qed.

(** X20.  After a dispatch from a command without parent that consumed
    the whole router prefix, the path of the context is the path of the
    command it names, provided children know their parent and no token of
    the prefix is empty. *)
Theorem context_path_is_command_path
        fuel st cmd args writer clr httpMethods p ctx node k fuel' :
  prepare fuel st cmd args writer clr httpMethods = Some p ->
  p_ctx p = Some ctx ->
  reaches st cmd args node k ->
  k = List.length (split_router args) ->
  Forall (fun tok => tok <> "") (split_router args) ->
  children_know_parent st ->
  parent (st cmd) = None ->
  List.length (split_router args) < fuel' ->
  Path fuel' st node = Some (Context_Path ctx).
Proof.
  intros Hp Hctx Hr -> Hne Hl Hpar Hf.
  destruct (context_of_closure _ _ _ _ _ _ _ _ _ _ _ _ _ Hp Hctx)
    as (_ & _ & _ & _ & _ & _ & Hpath & _).
  rewrite Hpath.
  apply SubRoute_iff_descends in Hr.
  pose proof (descends_above Hl Hr (above_root st cmd Hpar)) as Ha.
  simpl in Ha. rewrite firstn_all in Ha.
  rewrite (Path_above Ha Hf). now rewrite qualified_all_named.
Qed.

End DispatchMore.

(** ** The further properties at concrete inputs *)

Lemma ab_children_know_parent : children_know_parent Demo.ab.
Proof.
  intros [|[|[|q]]] c; simpl; intros H;
    repeat (destruct H as [<-|H]; [reflexivity|]); destruct H.
Qed.

Lemma hello_world_children_know_parent : children_know_parent Demo.hello_world.
Proof.
  intros [|[|[|q]]] c; simpl; intros H;
    repeat (destruct H as [<-|H]; [reflexivity|]); destruct H.
Qed.

Lemma loose_names_unique : names_unique Demo2.loose.
Proof. intros [|[|[|[|q]]]]; constructor. Qed.

Lemma loose_linked : linked Demo2.loose.
Proof.
  intros q c. split.
  - destruct q as [|[|[|[|q]]]]; intros [].
  - destruct c as [|[|[|[|c]]]]; discriminate.
Qed.

(** [SubRoute_longest_prefix] on root -> a -> b with the tokens a, b, c. *)
Lemma SubRoute_longest_prefix_witness :
  SubRoute Demo.ab 0 ["a"; "b"; "c"] = (Some 2, 2) /\
  Route Demo.ab 0 (firstn 2 ["a"; "b"; "c"]) = Some 2 /\
  forall j, j <= 3 ->
            (Route Demo.ab 0 (firstn j ["a"; "b"; "c"]) <> None <-> j <= 2).
Proof.
  split; [reflexivity|].
  exact (@SubRoute_longest_prefix _ _ _ _ Demo.ab 0 ["a"; "b"; "c"] 2 2 eq_refl).
Defined.

(** [Register_then_findChild] for registering "a" below "app". *)
Lemma Register_then_findChild_witness :
  exists st',
    Register Demo2.loose 0 (Some 1) = Done (st', 1) /\
    findChild st' 0 "a" = Some 1 /\
    Route st' 0 ["a"] = Some 1.
Proof.
  eexists. split; [reflexivity|].
  match goal with
  | |- findChild ?s _ _ = _ /\ _ =>
      assert (E : Register Demo2.loose 0 (Some 1) = Done (s, 1)) by reflexivity
  end.
  destruct (@Register_then_findChild _ _ _ _ _ _ _ _ _ E) as (H1 & H2 & _).
  split; [exact H1|exact H2].
Defined.

(** [Register_keeps_names_unique] for the same registration. *)
Lemma Register_keeps_names_unique_witness :
  exists st',
    Register Demo2.loose 0 (Some 1) = Done (st', 1) /\ names_unique st'.
Proof.
  eexists. split; [reflexivity|].
  match goal with
  | |- names_unique ?s =>
      assert (E : Register Demo2.loose 0 (Some 1) = Done (s, 1)) by reflexivity
  end.
  exact (@Register_keeps_names_unique _ _ _ _ _ _ _ _ _ E loose_names_unique).
Defined.

(** [Register_keeps_linked] for the same registration. *)
Lemma Register_keeps_linked_witness :
  exists st', Register Demo2.loose 0 (Some 1) = Done (st', 1) /\ linked st'.
Proof.
  eexists. split; [reflexivity|].
  match goal with
  | |- linked ?s =>
      assert (E : Register Demo2.loose 0 (Some 1) = Done (s, 1)) by reflexivity
  end.
  exact (@Register_keeps_linked _ _ _ _ _ _ _ _ _ E loose_linked).
Defined.

(** [Register_self_cycle] for the root of root -> a -> b. *)
Lemma Register_self_cycle_witness :
  exists st',
    Register Demo.ab 0 (Some 0) = Done (st', 0) /\
    parent (st' 0) = Some 0 /\
    In 0 (children (st' 0)) /\
    (forall fuel, Root fuel st' 0 = None) /\
    (forall fuel, Path fuel st' 0 = None).
Proof.
  apply (@Register_self_cycle _ _ _ _ Demo.ab 0).
  - discriminate.
  - reflexivity.
  - reflexivity.
Defined.

(** [Path_of_Route] on root -> a -> b. *)
Lemma Path_of_Route_witness :
  Route Demo.ab 0 ["a"; "b"] = Some 2 /\ Path 3 Demo.ab 2 = Some "a b".
Proof.
  split; [reflexivity|].
  apply (@Path_of_Route _ _ _ _ Demo.ab 0 ["a"; "b"] 2 3).
  - exact ab_children_know_parent.
  - reflexivity.
  - reflexivity.
  - repeat constructor; discriminate.
  - simpl. lia.
Defined.

(** [Suggestions_anywhere] for the command c of root -> a -> c -> e. *)
Lemma Suggestions_anywhere_witness :
  exists fuel0, forall fuel,
      fuel0 <= fuel ->
      Suggestions Demo.match_ insertionSort fuel Demo.deep 3 "x"
        = Suggestions Demo.match_ insertionSort fuel Demo.deep 0 "x" /\
      Suggestions Demo.match_ insertionSort fuel Demo.deep 3 "x" <> None.
Proof.
  apply (@Suggestions_anywhere _ _ _ _ Demo.match_ insertionSort Demo.deep 3 0
           shape_deep "x").
  - apply root_up with 1; [reflexivity|].
    apply root_up with 0; [reflexivity|]. now apply root_here.
  - repeat constructor.
Defined.

(** [Usage_stale_after_Register]: "stop" is registered after the first
    call and the text stays. *)
Lemma Usage_stale_after_Register_witness :
  exists text st1 st2,
    Demo.Usage Demo2.documented_plus 0 [] = (text, st1, 1) /\
    text <> "" /\
    Register st1 0 (Some 2) = Done (st2, 2) /\
    children (st2 0) = [1; 2] /\
    Demo.Usage st2 0 [] = (text, st2, 0).
Proof.
  eexists. eexists. eexists.
  split; [reflexivity|]. split; [discriminate|]. split; [reflexivity|].
  split; [reflexivity|].
  eapply (@Usage_stale_after_Register _ _ _ _ Demo.Bold Demo.usage_argv
            Demo.RuneCount Demo2.documented_plus 0 [] _ _ 1 0 (Some 2) _ 2).
  - reflexivity.
  - discriminate.
  - reflexivity.
Defined.

(** [Usage_empty_iff_bare] on a command with nothing to say. *)
Lemma Usage_empty_iff_bare_witness :
  fst (fst (Demo.Usage Demo2.loose 1 [])) = "" <->
  Desc (Demo2.loose 1) = "" /\ Text (Demo2.loose 1) = "" /\
  Argv (Demo2.loose 1) = None /\ children (Demo2.loose 1) = [].
Proof.
  exact (@Usage_empty_iff_bare _ _ _ _ Demo.Bold Demo.usage_argv Demo.RuneCount
           Demo2.loose 1 [] eq_refl).
Defined.

(** [RegisterFunc_spec] for a new command "run" at address 9. *)
Lemma RegisterFunc_spec_witness :
  match RegisterFunc Demo.ab 9 0 "run" (Some Demo.logging) None with
  | Panicked _ =>
      "run" = "" \/ exists x, In x (children (Demo.ab 0)) /\ Name (Demo.ab x) = "run"
  | Done (st', r) =>
      r = 9 /\ "run" <> "" /\
      (forall x, In x (children (Demo.ab 0)) -> Name (Demo.ab x) <> "run") /\
      Name (st' r) = "run" /\ Fn (st' r) = Some Demo.logging /\
      Argv (st' r) = None /\
      parent (st' r) = Some 0 /\
      children (st' 0) = children (Demo.ab 0) ++ [r] /\
      Route st' 0 ["run"] = Some r
  end.
Proof.
  apply (@RegisterFunc_spec _ _ _ _ Demo.ab 9 0 "run" (Some Demo.logging) None).
  - discriminate.
  - simpl. intros [H|[]]. discriminate.
Defined.

(** [RegisterTree_order] for the forest a (with c below) and b. *)
Lemma RegisterTree_order_witness :
  exists st',
    RegisterTree Demo2.loose 0 Demo2.forest = Done st' /\
    children (st' 0) = [1; 2] /\
    (forall c, In c [1; 2] -> parent (st' c) = Some 0).
Proof.
  eexists. split; [reflexivity|].
  match goal with
  | |- children (?s _) = _ /\ _ =>
      assert (E : RegisterTree Demo2.loose 0 Demo2.forest = Done s) by reflexivity
  end.
  destruct (@RegisterTree_order _ _ _ _ _ _ _ _ E) as (H1 & H2 & _).
  - simpl. intros [H|[H|[H|[]]]]; discriminate.
  - split; [exact H1|exact H2].
Defined.

(** [routing_ignores_flags]: "b" after the flag is not routed. *)
Lemma routing_ignores_flags_witness :
  split_router (["a"] ++ "-v" :: ["b"]) = split_router ["a"] /\
  (reaches Demo.ab 0 (["a"] ++ "-v" :: ["b"]) 1 1 <-> reaches Demo.ab 0 ["a"] 1 1).
Proof.
  destruct (@routing_ignores_flags _ _ _ _ Demo.ab 0 ["a"] "-v" ["b"] eq_refl)
    as (H1 & _ & H3).
  split; [exact H1|]. exact (proj1 (H3 1 1)).
Defined.

(** [handler_context] at the dispatch of the spec's example. *)
Lemma handler_context_witness :
  exists p ctx,
    Demo.prepare 0 Demo.hello_world 0 ["hello"; "world"; "-a"] true true [] = Some p /\
    p_err p = None /\
    p_ctx p = Some ctx /\
    ctx_command ctx = Some 2 /\
    ctx_writer ctx = Some true /\
    Context_Writer false ctx = (true, ctx).
Proof.
  eexists. eexists. split; [reflexivity|]. split; [reflexivity|].
  match goal with
  | |- p_ctx ?q = _ /\ _ =>
      assert (E : Demo.prepare 0 Demo.hello_world 0 ["hello"; "world"; "-a"]
                               true true [] = Some q) by reflexivity
  end.
  destruct (@handler_context _ _ _ _ Demo.match_ insertionSort Demo.Bold Demo.Yellow
              Demo.parseArgv Demo.Validate _ _ _ _ _ _ _ _ E eq_refl)
    as (ctx & node & k & Hc & _ & _ & _ & _ & _ & Hw).
  split; [reflexivity|]. simpl in Hc. injection Hc as <-.
  split; [reflexivity|]. split; [reflexivity|]. exact (Hw false).
Defined.

(** [no_argv_no_parsing] for the command "get", which has no factory. *)
Lemma no_argv_no_parsing_witness :
  Demo.prepare 0 Demo.gated 0 ["get"; "-x"] false false ["GET"] =
    Some (mkPrepared None
            (Some (mkContext ["get"] "get" None ["-x"] None (Some 1) (Some false)
                             false)) "").
Proof.
  apply (@no_argv_no_parsing _ _ _ _ Demo.match_ insertionSort Demo.Bold Demo.Yellow
           Demo.parseArgv Demo.Validate 0 Demo.gated 0 ["get"; "-x"] false false
           ["GET"] 1 1).
  - repeat split.
    + intros [H _]. discriminate.
    + intros [H _]. now apply H.
  - intros (method & rest & E & _ & Hn). injection E as <- <-.
    apply Hn. now left.
  - reflexivity.
Defined.

(** [context_path_is_command_path] at the dispatch of the spec's
    example. *)
Lemma context_path_is_command_path_witness :
  exists p ctx,
    Demo.prepare 0 Demo.hello_world 0 ["hello"; "world"; "-a"] false false []
      = Some p /\
    p_ctx p = Some ctx /\
    Path 3 Demo.hello_world 2 = Some (Context_Path ctx).
Proof.
  eexists. eexists. split; [reflexivity|]. split; [reflexivity|].
  eapply (@context_path_is_command_path _ _ _ _ Demo.match_ insertionSort Demo.Bold
            Demo.Yellow Demo.parseArgv Demo.Validate 0 Demo.hello_world 0
            ["hello"; "world"; "-a"] false false [] _ _ 2 2 3).
  - reflexivity.
  - reflexivity.
  - reflexivity.
  - reflexivity.
  - repeat constructor; discriminate.
  - exact hello_world_children_know_parent.
  - reflexivity.
  - simpl. lia.
Defined.

(** ** Registration and routing *)

Section RegisterRoutes.

Variables argv_obj cerr world Writer : Type.
Local Abbreviation store := (store argv_obj cerr world Writer).
Implicit Types (st : store) (cmd : ptr).

Lemma Register_keeps_found st cmd child st' r q name c :
  Register st cmd child = Done (st', r) ->
  findChild st q name = Some c ->
  findChild st' q name = Some c.
Proof.
  intros H Hf. apply Register_done in H.
  destruct H as (_ & _ & _ & _ & Hname & _ & Hch & Hother & _ & _).
  unfold findChild in *. destruct (Nat.eq_dec q cmd) as [->|Hq].
  - rewrite Hch, (@findChild_in_ext _ _ _ _ st st' _ _ Hname), findChild_in_app.
    now rewrite Hf.
  - now rewrite (Hother q Hq), (@findChild_in_ext _ _ _ _ st st' _ _ Hname).
Qed.

(** X21.  [Register] never redirects a route: a list of tokens that
    [Route] resolved from some command before a successful registration
    resolves to the same command after it. *)
Theorem Register_keeps_routes st cmd child st' r :
  Register st cmd child = Done (st', r) ->
  forall q router node,
    Route st q router = Some node ->
    Route st' q router = Some node.
Proof.
  intros H q router. revert q.
  induction router as [|tok toks IH]; intros q node HR.
  - exact HR.
  - apply Route_iff_descends in HR. apply Route_iff_descends.
    inversion HR as [| |? ? ? c ? k Hc Hd]; subst.
    apply descends_step with c.
    + apply findChild_in_some. apply findChild_in_some in Hc.
      now apply Register_keeps_found with (1 := H).
    + apply Route_iff_descends. apply IH. now apply Route_iff_descends.
Qed.

End RegisterRoutes.

(** [Register_keeps_routes]: "c" is registered below "a" and a, b still
    routes to b. *)
Lemma Register_keeps_routes_witness :
  exists st',
    Register Demo2.ab_plus 1 (Some 3) = Done (st', 3) /\
    Route Demo2.ab_plus 0 ["a"; "b"] = Some 2 /\
    Route st' 0 ["a"; "b"] = Some 2 /\
    Route st' 0 ["a"; "c"] = Some 3.
Proof.
  eexists. split; [reflexivity|]. split; [reflexivity|].
  match goal with
  | |- Route ?s _ _ = _ /\ _ =>
      assert (E : Register Demo2.ab_plus 1 (Some 3) = Done (s, 3)) by reflexivity
  end.
  split; [|reflexivity].
  now apply (@Register_keeps_routes _ _ _ _ _ _ _ _ _ E 0 ["a"; "b"] 2).
Defined.
